(** * Message history: trimming and the running summary

    A shallow embedding of [autogpt/memory/message_history.py]
    ([MessageHistory.trim_messages], [summary_message],
    [update_running_summary], [summarize_batch]) and the properties its
    specification states about it.

    Python objects that are mutated in place ([Message] instances) live in an
    explicit heap and are named by their address, so that aliasing, the deep
    copy of [update_running_summary] and the in-place edits of its
    normalisation loop are visible.  Exceptions and the mutable fields of the
    history are threaded through a small state-and-exception monad that keeps
    the state reached when an exception is raised. *)

From Stdlib Require Import Ascii String ZArith Lia.
From stdpp Require Import base numbers list strings gmap.

#[local] Open Scope string_scope.
#[local] Open Scope list_scope.
#[local] Open Scope nat_scope.

(** ** Strings *)

(** The characters the Python literals contain and a Rocq literal cannot. *)
Definition nl : string := String (Ascii.ascii_of_nat 10) EmptyString.
Definition dq : string := String (Ascii.ascii_of_nat 34) EmptyString.

(** [str.lower()].  Only the letters A-Z are mapped; the source compares the
    result with the ASCII words "assistant" and "system", and no character
    outside A-Z lowers to a letter of those two words. *)
Definition ascii_lower (c : ascii) : ascii :=
  let n := Ascii.nat_of_ascii c in
  if (65 <=? n)%nat && (n <=? 90)%nat then Ascii.ascii_of_nat (n + 32) else c.

Fixpoint lower (s : string) : string :=
  match s with
  | EmptyString => EmptyString
  | String c r => String (ascii_lower c) (lower r)
  end.

(** [sep.join(parts)] *)
Fixpoint join (sep : string) (parts : list string) : string :=
  match parts with
  | [] => ""
  | [p] => p
  | p :: rest => p +:+ sep +:+ join sep rest
  end.

(** ** Data model *)

(** Modelled from the spec: [Message] is declared in [autogpt/llm/base.py],
    which is not part of the sources at hand.  The spec describes it as a
    record of a role and a content with value equality; the source builds it
    as [Message(role, content)] and reads and assigns [.role] and
    [.content]. *)
Record Message := mkMessage { role : string; content : string }.

#[global] Instance Message_eq_dec : EqDecision Message.
Proof. solve_decision. Defined.

#[global] Instance Message_inhabited : Inhabited Message :=
  populate (mkMessage "" "").

(** A Python reference to a [Message] object, and the objects it may name. *)
Abbreviation loc := nat (only parsing).
Abbreviation heap := (list Message) (only parsing).

Definition deref (h : heap) (l : loc) : Message := h !!! l.

(** Modelled from the spec: [MessageCycle] is declared in
    [autogpt/llm/base.py] too.  The spec describes it as an ordered sequence
    of messages; the source reads it through [cycle.messages] only. *)
Record MessageCycle := mkCycle { cycle_messages : list loc }.

(** The fields of the [MessageHistory] dataclass ([agent] is only used to
    reach the audit log). *)
Record MessageHistory := mkHistory {
  message_cycles : list MessageCycle;
  summary : string;
  last_trimmed_index : Z
}.

(** A fresh history: [message_cycles = []], [summary = "I was created"],
    [last_trimmed_index = 0]. *)
Definition fresh_history : MessageHistory :=
  mkHistory [] "I was created" 0.

(** JSON values, and the [dict] that [extract_json_from_response] returns:
    keys in insertion order. *)
#[local] Set Warnings "-register-all".
Inductive json : Type :=
| JNull
| JBool (b : bool)
| JNum (n : Z)
| JStr (s : string)
| JArr (items : list json)
| JObj (fields : list (string * json)).

Abbreviation dict := (list (string * json)) (only parsing).

(** [key in d] and [del d[key]] *)
Definition dict_has (key : string) (d : dict) : bool :=
  existsb (λ kv, bool_decide (kv.1 = key)) d.

Definition dict_del (key : string) (d : dict) : dict :=
  filter (λ kv, kv.1 ≠ key) d.

(** ** Collaborators

    What the module imports and the sources at hand do not define: the
    configuration, the token counter, the JSON helpers, the completion service
    and the way Python prints and compares the objects of
    [autogpt/llm/base.py]. *)
Class Env := {
  (** [cfg.debug_mode] *)
  debug_mode : bool;
  (** [OPEN_AI_CHAT_MODELS.get(cfg.fast_llm_model).max_tokens] *)
  max_tokens : Z;
  (** [count_string_tokens(text, cfg.fast_llm_model)] *)
  count_string_tokens : string → Z;
  (** [str(message)] and [repr(message)] *)
  str_message : Message → string;
  repr_message : Message → string;
  (** [cycle == message], as [list.index] evaluates it between an element
      of [message_cycles] and the message looked for; it is given the
      messages of the cycle and the message, by value. *)
  cycle_eq_message : list Message → Message → bool;
  (** [extract_json_from_response(text)]: the parsed object, or the text of
      the [json.JSONDecodeError] it raises. *)
  extract_json_from_response : string → string + dict;
  (** [json.dumps(d)] *)
  json_dumps : dict → string;
  (** The completion service: its state, and one call to
      [create_chat_completion(prompt).content], which answers or raises. *)
  Service : Type;
  create_chat_completion : Service → string → Service * (string + string)
}.

(** ** State, exceptions and the monad *)

(** The two files the audit log is written to. *)
Inductive log_file := PROMPT_SUMMARY_FILE_NAME | SUMMARY_FILE_NAME.

(** What the code sends out, in the order it does. *)
Inductive effect : Type :=
| LoggerError (text : string)
| LogCycle (payload : string) (file_name : log_file)
| ChatCompletion (summary_so_far : string) (batch : list Message)
    (prompt : string).

Inductive exn : Type :=
| CompletionServiceFailure (reason : string)
| ValueError.

Inductive result (A : Type) : Type :=
| Ok (a : A)
| Raise (e : exn).
Arguments Ok {A} a.
Arguments Raise {A} e.

Section WithEnv.
Context {env : Env}.

Record World := mkWorld {
  objects : heap;
  self : MessageHistory;
  service : Service;
  trace : list effect
}.

Definition M (A : Type) : Type := World → result A * World.

#[global] Instance M_ret : MRet M := λ A a w, (Ok a, w).
#[global] Instance M_bind : MBind M := λ A B f m w,
  match m w with
  | (Ok a, w') => f a w'
  | (Raise e, w') => (Raise e, w')
  end.

Definition get_world : M World := λ w, (Ok w, w).
Definition raise {A} (e : exn) : M A := λ w, (Raise e, w).

Definition set_objects (h : heap) : M unit :=
  λ w, (Ok (), mkWorld h (self w) (service w) (trace w)).
Definition set_self (s : MessageHistory) : M unit :=
  λ w, (Ok (), mkWorld (objects w) s (service w) (trace w)).
Definition set_service (s : Service) : M unit :=
  λ w, (Ok (), mkWorld (objects w) (self w) s (trace w)).
Definition emit (e : effect) : M unit :=
  λ w, (Ok (), mkWorld (objects w) (self w) (service w) (trace w ++ [e])).

(** [self.summary = s] and [self.last_trimmed_index = i] *)
Definition set_summary (s : string) : M unit :=
  w ← get_world;
  set_self (mkHistory (message_cycles (self w)) s (last_trimmed_index (self w))).
Definition set_last_trimmed_index (i : Z) : M unit :=
  w ← get_world;
  set_self (mkHistory (message_cycles (self w)) (summary (self w)) i).

(** [event.role = r] and [event.content = c] *)
Definition set_role (event : loc) (r : string) : M unit :=
  w ← get_world;
  let m := deref (objects w) event in
  set_objects (<[event := mkMessage r (content m)]> (objects w)).
Definition set_content (event : loc) (c : string) : M unit :=
  w ← get_world;
  let m := deref (objects w) event in
  set_objects (<[event := mkMessage (role m) c]> (objects w)).

(** ** The history store *)

(** [MessageHistory.messages]: the messages of every cycle, in order. *)
Definition messages (s : MessageHistory) : list loc :=
  concat (cycle_messages <$> message_cycles s).

(** [MessageHistory.append(message_cycle)] *)
Definition append (message_cycle : MessageCycle) : M unit :=
  w ← get_world;
  set_self (mkHistory (message_cycles (self w) ++ [message_cycle])
              (summary (self w)) (last_trimmed_index (self w))).

(** [MessageHistory.summary_message()]; the [Message] it builds is a new
    object that no list holds, and is returned by value. *)
Definition summary_message : M Message :=
  w ← get_world;
  mret (mkMessage "system"
          ("This reminds you of these events from your past: " +:+ nl
             +:+ summary (self w))).

(** ** Python list operations *)

(** [enumerate(l)] *)
Definition enumerate {A} (l : list A) : list (nat * A) :=
  imap (λ i x, (i, x)) l.

(** [x in l] for a list of messages: some element is the same object or an
    equal one. *)
Definition py_in (h : heap) (x : loc) (l : list loc) : Prop :=
  Exists (λ y, y = x ∨ deref h y = deref h x) l.

#[global] Instance py_in_dec h x l : Decision (py_in h x l).
Proof. unfold py_in. apply _. Defined.

(** [l.remove(x)]: the first element that is [x] or equals it goes.  (Python
    raises [ValueError] when there is none; the source removes an element it
    has just read from the list.) *)
Fixpoint py_remove (h : heap) (x : loc) (l : list loc) : list loc :=
  match l with
  | [] => []
  | y :: rest =>
      if decide (y = x ∨ deref h y = deref h x) then rest
      else y :: py_remove h x rest
  end.

(** [l.index(x)], with the test that [==] performs given as [eqb]: the
    position of the first element that passes it, [None] where Python raises
    [ValueError]. *)
Fixpoint py_index {A} (eqb : A → bool) (l : list A) : option nat :=
  match l with
  | [] => None
  | y :: rest => if eqb y then Some 0%nat else S <$> py_index eqb rest
  end.

(** [copy.deepcopy(l)] for a list of messages: every object is copied once,
    an object that occurs twice is copied to one object ([memo]); the strings
    inside are immutable and shared. *)
Fixpoint deepcopy_from (memo : gmap loc loc) (h : heap) (l : list loc)
  : heap * list loc :=
  match l with
  | [] => (h, [])
  | x :: rest =>
      match memo !! x with
      | Some x' =>
          let '(h', rest') := deepcopy_from memo h rest in (h', x' :: rest')
      | None =>
          let x' := length h in
          let '(h', rest') :=
            deepcopy_from (<[x := x']> memo) (h ++ [deref h x]) rest in
          (h', x' :: rest')
      end
  end.

Definition deepcopy (l : list loc) : M (list loc) :=
  w ← get_world;
  let '(h', l') := deepcopy_from ∅ (objects w) l in
  set_objects h';; mret l'.

(** ** Normalisation of the events (lines 136-156) *)

(** The body of the loop, for the element [event] that the iterator has
    just produced; it returns the list [new_events] as the body leaves it. *)
Definition normalize_event (event : loc) (new_events : list loc)
  : M (list loc) :=
  w ← get_world;
  let m := deref (objects w) event in
  if decide (lower (role m) = "assistant") then
    set_role event "you";;
    match extract_json_from_response (content m) with
    | inr content_dict =>
        let content_dict :=
          if dict_has "thoughts" content_dict
          then dict_del "thoughts" content_dict else content_dict in
        set_content event (json_dumps content_dict)
    | inl e =>
        emit (LoggerError ("Error: Invalid JSON: " +:+ e));;
        if debug_mode then emit (LoggerError (content m)) else mret ()
    end;;
    mret new_events
  else if decide (lower (role m) = "system") then
    set_role event "your computer";;
    mret new_events
  else if decide (role m = "user") then
    mret (py_remove (objects w) event new_events)
  else mret new_events.

(** [for event in new_events: ...] over a list that the body edits: the
    iterator holds a position [i], stops when [i] is past the end of the list
    as it is then, and moves on by one after every turn.  No turn makes the
    list longer, so [length new_events] turns are enough
    ([normalize_loop_exits]). *)
Fixpoint normalize_loop (turns : nat) (i : nat) (new_events : list loc)
  : M (list loc) :=
  match turns with
  | O => mret new_events
  | S turns' =>
      match new_events !! i with
      | None => mret new_events
      | Some event =>
          new_events' ← normalize_event event new_events;
          normalize_loop turns' (S i) new_events'
      end
  end.

Definition normalize (new_events : list loc) : M (list loc) :=
  normalize_loop (length new_events) 0 new_events.

(** ** Summarising one batch (lines 193-226) *)

(** [str(batch)] for a list *)
Definition str_list (batch : list Message) : string :=
  "[" +:+ join ", " (repr_message <$> batch) +:+ "]".

Definition summary_prompt (summary_so_far : string) (batch : list Message)
  : string :=
  "Your task is to create a concise running summary of actions and information results in the provided text, focusing on key and potentially important information to remember."
  +:+ nl +:+ nl +:+
  "You will receive the current summary and your latest actions. Combine them, adding relevant key information from the latest development in 1st person past tense and keeping the summary concise."
  +:+ nl +:+ nl +:+
  "Summary So Far:" +:+ nl +:+
  dq +:+ dq +:+ dq +:+ nl +:+
  summary_so_far +:+ nl +:+
  dq +:+ dq +:+ dq +:+ nl +:+ nl +:+
  "Latest Development:" +:+ nl +:+
  dq +:+ dq +:+ dq +:+ nl +:+
  (match batch with [] => "Nothing new happened." | _ => str_list batch end)
  +:+ nl +:+
  dq +:+ dq +:+ dq +:+ nl.

(** [create_chat_completion(prompt).content] *)
Definition chat_completion (summary_so_far : string) (batch : list Message)
    (prompt : string) : M string :=
  emit (ChatCompletion summary_so_far batch prompt);;
  w ← get_world;
  let '(service', answer) := create_chat_completion (service w) prompt in
  set_service service';;
  match answer with
  | inr text => mret text
  | inl reason => raise (CompletionServiceFailure reason)
  end.

Definition summarize_batch (new_events_batch : list loc) : M unit :=
  w ← get_world;
  let batch := deref (objects w) <$> new_events_batch in
  let prompt := summary_prompt (summary (self w)) batch in
  emit (LogCycle prompt PROMPT_SUMMARY_FILE_NAME);;
  answer ← chat_completion (summary (self w)) batch prompt;
  set_summary answer;;
  emit (LogCycle answer SUMMARY_FILE_NAME).

(** ** The running summary (lines 110-191) *)

Definition prompt_template_length : Z := 100.

(** [count_string_tokens(str(event), cfg.fast_llm_model)] *)
Definition event_tokens (m : Message) : Z :=
  count_string_tokens (str_message m).

(** The packing loop (lines 169-185); it returns the batch that is left. *)
Fixpoint pack (new_events : list loc) (batch : list loc)
    (batch_tlength summary_tlength : Z) : M (list loc) :=
  match new_events with
  | [] => mret batch
  | event :: rest =>
      w ← get_world;
      let event_tlength := event_tokens (deref (objects w) event) in
      if decide (batch_tlength + event_tlength
                 > max_tokens - prompt_template_length - summary_tlength)%Z
      then
        summarize_batch batch;;
        w' ← get_world;
        let summary_tlength := count_string_tokens (summary (self w')) in
        pack rest [event] event_tlength summary_tlength
      else
        pack rest (batch ++ [event]) (batch_tlength + event_tlength)%Z
          summary_tlength
  end.

Definition update_running_summary (new_events : list loc) : M Message :=
  match new_events with
  | [] => summary_message
  | _ =>
      new_events ← deepcopy new_events;
      new_events ← normalize new_events;
      w ← get_world;
      let summary_tlength := count_string_tokens (summary (self w)) in
      batch ← pack new_events [] 0%Z summary_tlength;
      match batch with
      | [] => mret ()
      | _ => summarize_batch batch
      end;;
      summary_message
  end.

(** ** Trimming (lines 58-94) *)

(** [new_messages]: the messages whose position is past the cursor. *)
Definition new_messages (s : MessageHistory) : list loc :=
  snd <$> filter (λ p, (Z.of_nat p.1 > last_trimmed_index s)%Z)
            (enumerate (messages s)).

(** [new_messages_not_in_chain] *)
Definition new_messages_not_in_chain (h : heap) (s : MessageHistory)
    (current_message_chain : list loc) : list loc :=
  filter (λ msg, ¬ py_in h msg current_message_chain) (new_messages s).

(** [self.message_cycles.index(last_message)]: the list searched is the list
    of cycles. *)
Definition index_in_cycles (h : heap) (s : MessageHistory)
    (last_message : loc) : option nat :=
  py_index
    (λ cycle, cycle_eq_message (deref h <$> cycle_messages cycle)
                (deref h last_message))
    (message_cycles s).

Definition trim_messages (current_message_chain : list loc)
  : M (Message * list loc) :=
  w ← get_world;
  let new_messages_not_in_chain :=
    new_messages_not_in_chain (objects w) (self w) current_message_chain in
  match new_messages_not_in_chain with
  | [] => m ← summary_message; mret (m, [])
  | first :: _ =>
      new_summary_message ← update_running_summary new_messages_not_in_chain;
      let last_message := default first (last new_messages_not_in_chain) in
      w' ← get_world;
      match index_in_cycles (objects w') (self w') last_message with
      | None => raise ValueError
      | Some i =>
          set_last_trimmed_index (Z.of_nat i);;
          mret (new_summary_message, new_messages_not_in_chain)
      end
  end.

(** ** Vocabulary of the specification *)

(** [sum(token_length(e) for e in batch)] *)
Definition sum_tokens (batch : list Message) : Z :=
  foldr (λ m total, (event_tokens m + total)%Z) 0%Z batch.

(** The budget of a batch that started to accumulate under the summary
    [summary_so_far]. *)
Definition budget (summary_so_far : string) : Z :=
  (max_tokens - prompt_template_length
   - count_string_tokens summary_so_far)%Z.

Definition within_budget (summary_so_far : string) (batch : list Message)
  : Prop :=
  (sum_tokens batch ≤ budget summary_so_far)%Z.

(** Every completion call of a trace was given a batch within the budget. *)
Definition budget_respected (tr : list effect) : Prop :=
  Forall (λ e, match e with
               | ChatCompletion s batch _ => within_budget s batch
               | _ => True
               end) tr.

(** The same, asked only of the batches of two events or more. *)
Definition budget_respected_by_long_batches (tr : list effect) : Prop :=
  Forall (λ e, match e with
               | ChatCompletion s batch _ =>
                   (2 ≤ length batch)%nat → within_budget s batch
               | _ => True
               end) tr.

(** The completion calls of a trace. *)
Definition is_completion (e : effect) : bool :=
  match e with ChatCompletion _ _ _ => true | _ => false end.

Definition completions (tr : list effect) : list effect :=
  List.filter is_completion tr.

(** The summary that the flushes recorded in a trace leave, starting from
    [s]: the last answer written to the summary file. *)
Fixpoint last_answer (s : string) (tr : list effect) : string :=
  match tr with
  | [] => s
  | LogCycle answer SUMMARY_FILE_NAME :: rest => last_answer answer rest
  | _ :: rest => last_answer s rest
  end.

(** What a computation adds to the trace. *)
Definition effects_of {A} (m : M A) (w : World) : list effect :=
  drop (length (trace w)) (trace (m w).2).

(** ** Vocabulary of the proofs *)

(** [agree n w w']: the objects below address [n] are the same in [w'] as
    in [w]. *)
Definition agree (n : nat) (w w' : World) : Prop :=
  take n (objects w') = take n (objects w).

(** [quiet w w']: from [w] to [w'] the history and the service are
    untouched and only diagnostics were logged. *)
Definition is_diagnostic (e : effect) : Prop :=
  match e with LoggerError _ => True | _ => False end.

Definition quiet (w w' : World) : Prop :=
  self w' = self w ∧ service w' = service w ∧
  ∃ errs, trace w' = trace w ++ errs ∧ Forall is_diagnostic errs.

(** [committed w w' new]: from [w] to [w'] the cycles and the cursor are
    untouched, [new] is what was added to the trace, its batches of two
    events or more are within budget, and the summary is the last answer
    recorded in it. *)
Definition committed (w w' : World) (new : list effect) : Prop :=
  message_cycles (self w') = message_cycles (self w) ∧
  last_trimmed_index (self w') = last_trimmed_index (self w) ∧
  trace w' = trace w ++ new ∧
  budget_respected_by_long_batches new ∧
  summary (self w') = last_answer (summary (self w)) new.

(** The exception of a failed flush, and the trace it leaves: the last
    entry is the completion call that failed, issued under the summary that
    is still in place. *)
Definition failed_flush (w' : World) (new : list effect) (e : exn) : Prop :=
  ∃ reason pre batch prompt,
    e = CompletionServiceFailure reason ∧
    new = pre ++ [ChatCompletion (summary (self w')) batch prompt].

(** The batch at hand fits: if it holds two events or more, it is within
    the budget that the summary in place leaves. *)
Definition batch_fits (w : World) (batch : list loc) : Prop :=
  2 ≤ length batch →
  within_budget (summary (self w)) (deref (objects w) <$> batch).

End WithEnv.

(** ** Concrete collaborators

    Stand-ins for the collaborators, to run the code on concrete inputs: a
    token is a character, a message prints as [role: content], the model has
    a context of 4096 tokens, and the completion service answers its [n]-th
    call with ["summary n"] unless [n] is in [failing]. *)

Definition digit (n : nat) : string :=
  String (Ascii.ascii_of_nat (48 + n `mod` 10)) EmptyString.

Definition show_message (m : Message) : string :=
  role m +:+ ": " +:+ content m.

(** A reader for the JSON objects whose values are strings without escapes:
    [{"k": "v", ...}]. *)
Definition is_space (c : ascii) : bool :=
  bool_decide (c = " "%char) || bool_decide (c = Ascii.ascii_of_nat 10).

Fixpoint skip_spaces (s : string) : string :=
  match s with
  | String c r => if is_space c then skip_spaces r else s
  | EmptyString => s
  end.

Fixpoint read_until_quote (s : string) : option (string * string) :=
  match s with
  | EmptyString => None
  | String c r =>
      if bool_decide (c = Ascii.ascii_of_nat 34) then Some (EmptyString, r)
      else '(text, rest) ← read_until_quote r; Some (String c text, rest)
  end.

Definition read_string (s : string) : option (string * string) :=
  match skip_spaces s with
  | String c r =>
      if bool_decide (c = Ascii.ascii_of_nat 34) then read_until_quote r
      else None
  | EmptyString => None
  end.

Definition expect (c : ascii) (s : string) : option string :=
  match skip_spaces s with
  | String c' r => if bool_decide (c' = c) then Some r else None
  | EmptyString => None
  end.

Fixpoint read_fields (turns : nat) (s : string) : option dict :=
  match turns with
  | O => None
  | S turns' =>
      '(key, s) ← read_string s;
      s ← expect ":"%char s;
      '(value, s) ← read_string s;
      match expect ","%char s with
      | Some s => fields ← read_fields turns' s; Some ((key, JStr value) :: fields)
      | None =>
          s ← expect "}"%char s;
          if bool_decide (skip_spaces s = EmptyString)
          then Some [(key, JStr value)] else None
      end
  end.

Definition read_object (s : string) : string + dict :=
  match expect "{"%char s with
  | None => inl "Expecting value"
  | Some s' =>
      match expect "}"%char s' with
      | Some rest =>
          if bool_decide (skip_spaces rest = EmptyString) then inr []
          else inl "Extra data"
      | None =>
          match read_fields (String.length s) s' with
          | Some d => inr d
          | None => inl "Expecting property name enclosed in double quotes"
          end
      end
  end.

(** [json.dumps] on such objects: [{"k": "v", "k2": "v2"}]. *)
Definition write_field (kv : string * json) : string :=
  dq +:+ kv.1 +:+ dq +:+ ": " +:+
  match kv.2 with
  | JStr v => dq +:+ v +:+ dq
  | _ => "null"
  end.

Definition write_object (d : dict) : string :=
  "{" +:+ join ", " (write_field <$> d) +:+ "}".

Definition answer_of (failing : list nat) (n : nat) (prompt : string)
  : nat * (string + string) :=
  (S n, if bool_decide (n ∈ failing) then inl "service unavailable"
        else inr ("summary " +:+ digit n)).

Definition stand_in (eqb : list Message → Message → bool)
    (failing : list nat) : Env := {|
  debug_mode := false;
  max_tokens := 4096;
  count_string_tokens := λ s, Z.of_nat (String.length s);
  str_message := show_message;
  repr_message := show_message;
  cycle_eq_message := eqb;
  extract_json_from_response := read_object;
  json_dumps := write_object;
  Service := nat;
  create_chat_completion := answer_of failing
|}.

(** Two readings of [cycle == message]: never equal (what Python's generated
    dataclass [__eq__] gives for objects of two classes), and equal when the
    message is one of the cycle's (the reading under which the lookup of
    line 92 finds the cycle a message belongs to). *)
Definition never_equal : list Message → Message → bool := λ _ _, false.
Definition holds_message : list Message → Message → bool :=
  λ cycle m, bool_decide (m ∈ cycle).


(** The collaborators used below: Python's reading of [cycle == message]
    with a service that always answers, the reading that finds the cycle of a
    message, and the latter with a service whose second call fails. *)
Definition dataclass_env : Env := stand_in never_equal [].
Definition lookup_env : Env := stand_in holds_message [].
Definition flaky_env : Env := stand_in holds_message [1].

(** ** Concrete inputs *)

(** A text of [n] characters. *)
Fixpoint filler (n : nat) : string :=
  match n with
  | O => EmptyString
  | S n' => String "a"%char (filler n')
  end.

(** [{"thoughts": "x", "action": "y"}] and [{"action": "y"}] *)
Definition thoughts_and_action : string :=
  "{" +:+ dq +:+ "thoughts" +:+ dq +:+ ": " +:+ dq +:+ "x" +:+ dq +:+ ", "
  +:+ dq +:+ "action" +:+ dq +:+ ": " +:+ dq +:+ "y" +:+ dq +:+ "}".

Definition action_only : string :=
  "{" +:+ dq +:+ "action" +:+ dq +:+ ": " +:+ dq +:+ "y" +:+ dq +:+ "}".

Definition m0 : Message := mkMessage "system" "You are an agent".
Definition m1 : Message := mkMessage "assistant" thoughts_and_action.
Definition m2 : Message := mkMessage "system" "Command returned: done".
Definition m3 : Message := mkMessage "assistant" "I am not JSON".

(** The history of the trim example: [m0, m1, m2, m3] in two cycles, the
    cursor at 0. *)
Definition two_cycles : MessageHistory :=
  mkHistory [mkCycle [0; 1]; mkCycle [2; 3]] "I was created" 0.

(** A history of four cycles of one message; the last message equals the
    second. *)
Definition four_cycles : MessageHistory :=
  mkHistory [mkCycle [0]; mkCycle [1]; mkCycle [2]; mkCycle [3]]
    "I was created" 0.

(** Three events of 2515 tokens each after normalisation: no two of them fit
    in one batch. *)
Definition long_event : Message := mkMessage "system" (filler 2500).

(** One event of 5015 tokens: more than the whole context leaves. *)
Definition oversize_event : Message := mkMessage "system" (filler 5000).

(** The history of the trim example once everything is trimmed: the cursor
    is at the last message. *)
Definition all_trimmed : MessageHistory :=
  mkHistory [mkCycle [0; 1]; mkCycle [2; 3]] "I found a key" 3.

(** Three user messages. *)
Definition u0 : Message := mkMessage "user" "Determine the next command".
Definition u1 : Message := mkMessage "user" "Continue".
Definition u2 : Message := mkMessage "user" "Stop".

(** A completion call whose batch is over its budget. *)
Definition over_budget `{Env} (e : effect) : bool :=
  match e with
  | ChatCompletion s batch _ => bool_decide (sum_tokens batch > budget s)%Z
  | _ => false
  end.

(** ** The rest of the store interface (lines 35-48 and 96-102) *)

(** [MessageHistory.__len__]: the number of cycles. *)
Definition len (s : MessageHistory) : nat := length (message_cycles s).

(** [MessageHistory.__getitem__(i)] for an integer [i]: Python counts a
    negative index from the end; [None] where it raises [IndexError]. *)
Definition getitem (s : MessageHistory) (i : Z) : option MessageCycle :=
  let n := Z.of_nat (length (message_cycles s)) in
  if decide (0 ≤ i < n)%Z then message_cycles s !! Z.to_nat i
  else if decide (- n ≤ i < 0)%Z then message_cycles s !! Z.to_nat (n + i)
  else None.

(** [MessageHistory.__iter__] and [per_cycle]: the cycles, first to last. *)
Definition iter (s : MessageHistory) : list MessageCycle := message_cycles s.
Definition per_cycle (s : MessageHistory) : list MessageCycle :=
  message_cycles s.

(** The batches of the completion calls of a trace, first to last. *)
Fixpoint sent_batches (tr : list effect) : list (list Message) :=
  match tr with
  | [] => []
  | ChatCompletion _ batch _ :: rest => batch :: sent_batches rest
  | _ :: rest => sent_batches rest
  end.

(** Every second element of a list, from the second on. *)
Fixpoint every_second {A} (l : list A) : list A :=
  match l with
  | _ :: y :: rest => y :: every_second rest
  | _ => []
  end.

Section MoreOperations.
Context {env : Env}.

(** [MessageHistory.add(message_cycle)] *)
Definition add (message_cycle : MessageCycle) : M unit :=
  append message_cycle.

(** What lines 137-152 make of one message that is not a user message: the
    value that the object has after its turn. *)
Definition normalized_message (m : Message) : Message :=
  if decide (lower (role m) = "assistant") then
    mkMessage "you"
      match extract_json_from_response (content m) with
      | inr content_dict =>
          json_dumps (if dict_has "thoughts" content_dict
                      then dict_del "thoughts" content_dict
                      else content_dict)
      | inl _ => content m
      end
  else if decide (lower (role m) = "system") then
    mkMessage "your computer" (content m)
  else m.

(** What the memo of [deepcopy_from] records while the heap grows from [h0]
    to [h]: every object seen so far has one copy, allocated after [h0],
    with the value the object has in [h0]; two objects never share a copy. *)
Definition memo_ok (h0 : heap) (memo : gmap loc loc) (h : heap) : Prop :=
  h0 `prefix_of` h ∧
  (∀ x x', memo !! x = Some x' →
           length h0 ≤ x' < length h ∧ x < length h0 ∧ h !! x' = h0 !! x) ∧
  (∀ x y z, memo !! x = Some z → memo !! y = Some z → x = y).

(** Lines 162-191: what [update_running_summary] does with the normalised
    copies. *)
Definition summarize_events (new_events : list loc) : M Message :=
  w ← get_world;
  batch ← pack new_events [] 0%Z (count_string_tokens (summary (self w)));
  match batch with
  | [] => mret ()
  | _ => summarize_batch batch
  end;;
  summary_message.

(** The completion calls of a trace, each as the summary it was made under
    and its batch. *)
Fixpoint calls (tr : list effect) : list (string * list Message) :=
  match tr with
  | [] => []
  | ChatCompletion s batch _ :: rest => (s, batch) :: calls rest
  | _ :: rest => calls rest
  end.

(** The first event of [batch] did not fit in the batch of the call
    [earlier], under the summary of that call. *)
Definition overflows (earlier : string * list Message) (batch : list Message)
  : Prop :=
  match batch with
  | [] => False
  | e :: _ => (sum_tokens earlier.2 + event_tokens e > budget earlier.1)%Z
  end.

(** Every call after the first, and the first too when a call [previous]
    came before, starts with the event that overflowed the call before it. *)
Fixpoint forced_after (previous : option (string * list Message))
    (cs : list (string * list Message)) : Prop :=
  match cs with
  | [] => True
  | c :: rest =>
      from_option (λ p, overflows p c.2) True previous ∧
      forced_after (Some c) rest
  end.

(** The last call made, when [cs] follow [previous]. *)
Definition last_call (previous : option (string * list Message))
    (cs : list (string * list Message)) : option (string * list Message) :=
  from_option Some previous (last cs).

End MoreOperations.

(** ** Sequences of calls on one store *)


Section SequencesOfCalls.
Context {env : Env}.




End SequencesOfCalls.

(** * Properties *)

Section Properties.
Context {env : Env}.

(** ** Running a computation *)

Lemma run_bind {A B} (m : M A) (f : A → M B) (w : World) :
  ((m ≫= f) : M B) w =
  match m w with
  | (Ok a, w') => f a w'
  | (Raise e, w') => (Raise e, w')
  end.
Proof. reflexivity. Qed.

Lemma run_ret {A} (a : A) (w : World) : (mret a : M A) w = (Ok a, w).
Proof. reflexivity. Qed.

Lemma world_eta (w : World) :
  mkWorld (objects w) (self w) (service w) (trace w) = w.
Proof. by destruct w. Qed.

Lemma history_eta (s : MessageHistory) :
  mkHistory (message_cycles s) (summary s) (last_trimmed_index s) = s.
Proof. by destruct s. Qed.

(** ** The summary message *)

Lemma summary_message_run (w : World) :
  summary_message w =
  (Ok (mkMessage "system"
         ("This reminds you of these events from your past: " +:+ nl
            +:+ summary (self w))), w).
Proof. reflexivity. Qed.

(** ** The candidates of a trim *)

Lemma filter_enumerate_from {A} (c : Z) (n : nat) (l : list A) :
  snd <$> filter (λ p, (Z.of_nat p.1 > c)%Z) (imap (λ i x, (n + i, x)) l)
  = drop (Z.to_nat (c + 1) - n) l.
Proof.
  revert n. induction l as [|x l IH]; intros n.
  - by rewrite drop_nil.
  - rewrite imap_cons, filter_cons. cbn [fst].
    assert (Hext : imap ((λ i x0, (n + i, x0)) ∘ S) l
                   = imap (λ i x0, (S n + i, x0)) l).
    { apply imap_ext. intros i y _. cbn. f_equal. lia. }
    rewrite Hext. case_decide as Hc.
    + rewrite fmap_cons, IH. cbn [snd].
      replace (Z.to_nat (c + 1) - n) with 0 by lia.
      replace (Z.to_nat (c + 1) - S n) with 0 by lia.
      by rewrite !drop_0.
    + rewrite IH.
      replace (Z.to_nat (c + 1) - n) with (S (Z.to_nat (c + 1) - S n)) by lia.
      done.
Qed.

(** The candidates are the messages after position [last_trimmed_index]. *)
Lemma new_messages_drop (s : MessageHistory) :
  new_messages s = drop (Z.to_nat (last_trimmed_index s + 1)) (messages s).
Proof.
  unfold new_messages, enumerate.
  pose proof (filter_enumerate_from (last_trimmed_index s) 0 (messages s)) as H.
  cbn [Nat.add] in H. rewrite H. f_equal. lia.
Qed.

Lemma not_in_chain_sublist (h : heap) (s : MessageHistory) (chain : list loc) :
  new_messages_not_in_chain h s chain `sublist_of` new_messages s.
Proof. apply sublist_filter. Qed.

(** ** Trimming when nothing is stale *)

Lemma trim_messages_nothing_stale (chain : list loc) (w : World) :
  new_messages_not_in_chain (objects w) (self w) chain = [] →
  trim_messages chain w =
  (Ok (mkMessage "system"
         ("This reminds you of these events from your past: " +:+ nl
            +:+ summary (self w)), []), w).
Proof.
  intros Hstale. unfold trim_messages.
  rewrite run_bind. cbn. rewrite Hstale. reflexivity.
Qed.

(** ** What the steps leave unchanged *)

Lemma agree_refl n w : agree n w w.
Proof. reflexivity. Qed.

Lemma agree_trans n w1 w2 w3 : agree n w1 w2 → agree n w2 w3 → agree n w1 w3.
Proof. unfold agree. congruence. Qed.

Lemma quiet_refl w : quiet w w.
Proof.
  repeat split. exists []. split; [by rewrite app_nil_r | constructor].
Qed.

Lemma quiet_trans w1 w2 w3 : quiet w1 w2 → quiet w2 w3 → quiet w1 w3.
Proof.
  intros (Hs1 & Hc1 & e1 & Ht1 & Hf1) (Hs2 & Hc2 & e2 & Ht2 & Hf2).
  repeat split; [congruence | congruence |].
  exists (e1 ++ e2). split.
  - rewrite Ht2, Ht1. by rewrite app_assoc.
  - by apply Forall_app.
Qed.

Lemma agree_insert n (event : loc) (m : Message) w :
  n ≤ event →
  agree n w (mkWorld (<[event := m]> (objects w)) (self w) (service w) (trace w)).
Proof. intros Hn. unfold agree. cbn. by apply take_insert_ge. Qed.

Lemma quiet_objects (h : heap) w :
  quiet w (mkWorld h (self w) (service w) (trace w)).
Proof.
  repeat split. exists []. cbn. split; [by rewrite app_nil_r | constructor].
Qed.

Ltac solve_quiet :=
  unfold quiet; cbn; split; [done | split; [done |]];
  first
    [ exists []; split; [by rewrite app_nil_r | constructor]
    | eexists; split;
      [rewrite <- ?app_assoc; reflexivity | by repeat constructor] ].

Lemma py_remove_sublist (h : heap) (x : loc) (l : list loc) :
  py_remove h x l `sublist_of` l.
Proof.
  induction l as [|y l IH]; cbn; [done |].
  case_decide; [by apply sublist_cons | by apply sublist_skip].
Qed.

(** One turn of the normalisation loop never raises, writes to the object
    [event] only, and may only take elements out of the list. *)
Lemma normalize_event_spec (n : nat) (event : loc) (events : list loc) w :
  n ≤ event →
  ∃ events' w',
    normalize_event event events w = (Ok events', w') ∧
    agree n w w' ∧ quiet w w' ∧ events' `sublist_of` events.
Proof.
  intros Hn. unfold normalize_event.
  rewrite run_bind. cbn.
  destruct (decide (lower (role (deref (objects w) event)) = "assistant")).
  - destruct (extract_json_from_response
                (content (deref (objects w) event))) as [err|d] eqn:Hjson.
    + destruct debug_mode eqn:Hdebug;
        unfold set_role, emit, set_objects, get_world;
        repeat (rewrite run_bind; cbn); rewrite ?Hdebug; cbn;
        eexists _, _; (split; [reflexivity |]);
        (split; [by apply take_insert_ge |]);
        (split; [solve_quiet | done]).
    + unfold set_role, set_content, set_objects, get_world.
      repeat (rewrite run_bind; cbn).
      eexists _, _. split; [reflexivity |].
      split; [| split; [apply quiet_objects | done]].
      unfold agree. cbn [objects]. rewrite !take_insert_ge by done. done.
  - destruct (decide (lower (role (deref (objects w) event)) = "system")).
    + unfold set_role, set_objects, get_world.
      repeat (rewrite run_bind; cbn).
      eexists _, _. split; [reflexivity |].
      split; [by apply agree_insert | split; [apply quiet_objects | done]].
    + destruct (decide (role (deref (objects w) event) = "user")).
      * eexists _, _. split; [reflexivity |].
        split; [apply agree_refl | split; [apply quiet_refl |]].
        apply py_remove_sublist.
      * eexists _, _. split; [reflexivity |].
        split; [apply agree_refl | split; [apply quiet_refl | done]].
Qed.

(** The normalisation loop never raises, writes only to the objects of the
    list it is given, and returns a sub-list of it. *)
Lemma normalize_loop_spec (n : nat) (turns : nat) :
  ∀ (i : nat) (events : list loc) w,
    Forall (λ l, n ≤ l) events →
    ∃ events' w',
      normalize_loop turns i events w = (Ok events', w') ∧
      agree n w w' ∧ quiet w w' ∧ events' `sublist_of` events.
Proof.
  induction turns as [|turns IH]; intros i events w Hfresh; cbn.
  - exists events, w. by split; [| split; [| split; [apply quiet_refl |]]].
  - destruct (events !! i) as [event|] eqn:Hi.
    + assert (Hn : n ≤ event) by by eapply (Forall_lookup_1 _ _ _ _ Hfresh).
      destruct (normalize_event_spec n event events w Hn)
        as (events1 & w1 & Hrun & Hagree & Hquiet & Hsub).
      rewrite run_bind, Hrun.
      assert (Hfresh1 : Forall (λ l, n ≤ l) events1).
      { rewrite Forall_forall in Hfresh |- *. intros x Hx.
        apply Hfresh. by apply (sublist_subseteq _ _ Hsub). }
      destruct (IH (S i) events1 w1 Hfresh1)
        as (events2 & w2 & Hrun2 & Hagree2 & Hquiet2 & Hsub2).
      exists events2, w2. split; [done |].
      split; [by eapply agree_trans |].
      split; [by eapply quiet_trans | by etrans].
    + exists events, w. by split; [| split; [| split; [apply quiet_refl |]]].
Qed.

(** [length new_events] turns are enough: with that many or more, the loop
    ends because the iterator is past the end of the list. *)
Lemma normalize_loop_exits (turns1 : nat) :
  ∀ (turns2 i : nat) (events : list loc) w,
    length events - i ≤ turns1 → length events - i ≤ turns2 →
    normalize_loop turns1 i events w = normalize_loop turns2 i events w.
Proof.
  induction turns1 as [|turns1 IH]; intros turns2 i events w H1 H2.
  - assert (Hnone : events !! i = None) by (apply lookup_ge_None; lia).
    destruct turns2; cbn; by rewrite ?Hnone.
  - cbn. destruct (events !! i) as [event|] eqn:Hi.
    + apply lookup_lt_Some in Hi as Hlt.
      destruct turns2 as [|turns2]; [lia |].
      cbn. rewrite Hi, !run_bind.
      destruct (normalize_event_spec 0 event events w (Nat.le_0_l _))
        as (events1 & w1 & -> & _ & _ & Hsub).
      apply sublist_length in Hsub. apply IH; lia.
    + destruct turns2; cbn; by rewrite ?Hi.
Qed.

(** ** The deep copy *)

Lemma deepcopy_from_spec (n : nat) (l : list loc) :
  ∀ (memo : gmap loc loc) (h : heap),
    map_Forall (λ _ x', n ≤ x') memo → n ≤ length h →
    h `prefix_of` (deepcopy_from memo h l).1 ∧
    Forall (λ x', n ≤ x') (deepcopy_from memo h l).2.
Proof.
  induction l as [|x l IH]; intros memo h Hmemo Hn; cbn.
  - split; [done | constructor].
  - destruct (memo !! x) as [x'|] eqn:Hx.
    + destruct (IH memo h Hmemo Hn) as [Hpre Hall].
      destruct (deepcopy_from memo h l) as [h' l']. cbn in *.
      split; [done |]. constructor; [by apply (Hmemo x) | done].
    + destruct (IH (<[x := length h]> memo) (h ++ [deref h x])) as [Hpre Hall].
      { by apply map_Forall_insert_2. }
      { rewrite length_app. lia. }
      destruct (deepcopy_from _ _ l) as [h' l']. cbn in *.
      split; [| by constructor].
      etrans; [| exact Hpre]. by apply prefix_app_r.
Qed.

Lemma deepcopy_spec (l : list loc) w :
  ∃ l' w',
    deepcopy l w = (Ok l', w') ∧
    agree (length (objects w)) w w' ∧ quiet w w' ∧
    Forall (λ x', length (objects w) ≤ x') l'.
Proof.
  unfold deepcopy. rewrite run_bind. cbn.
  destruct (deepcopy_from_spec (length (objects w)) l ∅ (objects w))
    as [[k Hpre] Hall]; [apply map_Forall_empty | done |].
  destruct (deepcopy_from ∅ (objects w) l) as [h' l']. cbn in *.
  unfold set_objects. rewrite run_bind. cbn.
  eexists _, _. split; [reflexivity |].
  split; [| split; [solve_quiet | done]].
  unfold agree. cbn. rewrite Hpre, take_app_length. by rewrite firstn_all.
Qed.

(** ** Flushing a batch *)

(** The two outcomes of [summarize_batch]: the service answers and the
    answer becomes the summary, or it fails and the summary stays. *)
Lemma summarize_batch_run (new_events_batch : list loc) w :
  let batch := deref (objects w) <$> new_events_batch in
  let prompt := summary_prompt (summary (self w)) batch in
  let sent :=
    (trace w ++ [LogCycle prompt PROMPT_SUMMARY_FILE_NAME])
      ++ [ChatCompletion (summary (self w)) batch prompt] in
  summarize_batch new_events_batch w =
  match create_chat_completion (service w) prompt with
  | (service', inr answer) =>
      (Ok (),
       mkWorld (objects w)
         (mkHistory (message_cycles (self w)) answer
            (last_trimmed_index (self w)))
         service' (sent ++ [LogCycle answer SUMMARY_FILE_NAME]))
  | (service', inl reason) =>
      (Raise (CompletionServiceFailure reason),
       mkWorld (objects w) (self w) service' sent)
  end.
Proof.
  cbn. unfold summarize_batch, chat_completion, emit, get_world.
  repeat (rewrite run_bind; cbn).
  destruct (create_chat_completion _ _) as [service' [reason|answer]];
    reflexivity.
Qed.

Lemma last_answer_app (s : string) (tr1 tr2 : list effect) :
  last_answer s (tr1 ++ tr2) = last_answer (last_answer s tr1) tr2.
Proof.
  revert s. induction tr1 as [|e tr1 IH]; intros s; [done |].
  destruct e as [| payload [] |]; cbn; apply IH.
Qed.

Lemma committed_refl w : committed w w [].
Proof.
  repeat split; [by rewrite app_nil_r | constructor].
Qed.

Lemma committed_trans w1 w2 w3 new1 new2 :
  committed w1 w2 new1 → committed w2 w3 new2 →
  committed w1 w3 (new1 ++ new2).
Proof.
  intros (Hc1 & Hi1 & Ht1 & Hb1 & Hs1) (Hc2 & Hi2 & Ht2 & Hb2 & Hs2).
  repeat split; [congruence | congruence | | |].
  - by rewrite Ht2, Ht1, app_assoc.
  - by apply Forall_app.
  - by rewrite last_answer_app, <- Hs1.
Qed.

Lemma quiet_committed w w' :
  quiet w w' → ∃ new, committed w w' new ∧ Forall is_diagnostic new.
Proof.
  intros (Hs & Hc & errs & Ht & Hf). exists errs. split; [| done].
  unfold committed. rewrite Hs. repeat split; [done | |].
  - eapply Forall_impl; [exact Hf |]. by intros [].
  - clear Ht. induction Hf as [|e errs He _ IH]; [done |].
    by destruct e.
Qed.

Lemma failed_flush_app w' pre new e :
  failed_flush w' new e → failed_flush w' (pre ++ new) e.
Proof.
  intros (reason & pre' & batch & prompt & -> & ->).
  exists reason, (pre ++ pre'), batch, prompt. by rewrite app_assoc.
Qed.

Lemma summarize_batch_spec (batch : list loc) w :
  batch_fits w batch →
  ∃ new,
    objects (summarize_batch batch w).2 = objects w ∧
    committed w (summarize_batch batch w).2 new ∧
    match (summarize_batch batch w).1 with
    | Ok _ => True
    | Raise e => failed_flush (summarize_batch batch w).2 new e
    end.
Proof.
  intros Hfits. rewrite summarize_batch_run. cbn zeta.
  destruct (create_chat_completion _ _) as [service' [reason|answer]]; cbn.
  - eexists. split; [done |]. split.
    + repeat split; cbn; [rewrite <- app_assoc; reflexivity | |].
      * repeat constructor. intros Hlen. apply Hfits.
        by rewrite length_fmap in Hlen.
      * done.
    + by exists reason, [LogCycle
        (summary_prompt (summary (self w)) (deref (objects w) <$> batch))
        PROMPT_SUMMARY_FILE_NAME], (deref (objects w) <$> batch),
        (summary_prompt (summary (self w)) (deref (objects w) <$> batch)).
  - eexists. split; [done |]. split; [| done].
    repeat split; cbn; [rewrite <- !app_assoc; reflexivity | |].
    + repeat constructor. intros Hlen. apply Hfits.
      by rewrite length_fmap in Hlen.
    + done.
Qed.

(** ** The packing loop *)

Lemma sum_tokens_app (batch1 batch2 : list Message) :
  sum_tokens (batch1 ++ batch2) = (sum_tokens batch1 + sum_tokens batch2)%Z.
Proof.
  unfold sum_tokens.
  induction batch1 as [|m batch1 IH]; cbn; [lia |].
  rewrite IH. lia.
Qed.

Lemma pack_step (event : loc) (rest batch : list loc)
    (batch_tlength summary_tlength : Z) w :
  pack (event :: rest) batch batch_tlength summary_tlength w =
  let event_tlength := event_tokens (deref (objects w) event) in
  if decide (batch_tlength + event_tlength
             > max_tokens - prompt_template_length - summary_tlength)%Z
  then
    match summarize_batch batch w with
    | (Ok _, w') =>
        pack rest [event] event_tlength
          (count_string_tokens (summary (self w'))) w'
    | (Raise e, w') => (Raise e, w')
    end
  else
    pack rest (batch ++ [event]) (batch_tlength + event_tlength)%Z
      summary_tlength w.
Proof.
  cbn [pack]. rewrite run_bind. cbn.
  case_decide; [| done].
  rewrite run_bind. destruct (summarize_batch batch w) as [[[]|e] w']; done.
Qed.

(** The loop keeps the running totals in step with the batch and the
    summary, flushes only batches that fit, and leaves one that fits. *)
Lemma pack_spec (events : list loc) :
  ∀ (batch : list loc) (batch_tlength summary_tlength : Z) w,
    batch_tlength = sum_tokens (deref (objects w) <$> batch) →
    summary_tlength = count_string_tokens (summary (self w)) →
    batch_fits w batch →
    ∃ new,
      objects (pack events batch batch_tlength summary_tlength w).2
        = objects w ∧
      committed w (pack events batch batch_tlength summary_tlength w).2 new ∧
      match (pack events batch batch_tlength summary_tlength w).1 with
      | Ok batch' =>
          batch_fits (pack events batch batch_tlength summary_tlength w).2
            batch'
      | Raise e =>
          failed_flush (pack events batch batch_tlength summary_tlength w).2
            new e
      end.
Proof.
  induction events as [|event rest IH];
    intros batch batch_tlength summary_tlength w Hsum Hlen Hfits.
  - exists []. cbn. split; [done |]. split; [apply committed_refl | done].
  - rewrite pack_step. cbn zeta. case_decide as Hover.
    + destruct (summarize_batch_spec batch w Hfits)
        as (new1 & Hobj1 & Hcom1 & Hres1).
      destruct (summarize_batch batch w) as [[[]|e] w1];
        cbn [fst snd] in Hobj1, Hcom1, Hres1.
      * destruct (IH [event] (event_tokens (deref (objects w) event))
                    (count_string_tokens (summary (self w1))) w1)
          as (new2 & Hobj2 & Hcom2 & Hres2).
        { rewrite Hobj1. cbn. lia. }
        { done. }
        { intros Hshort. cbn in Hshort. lia. }
        exists (new1 ++ new2). split; [congruence |].
        split; [by eapply committed_trans |].
        destruct (pack rest _ _ _ w1) as [[batch'|e] w2]; cbn in *;
          [done | by apply failed_flush_app].
      * exists new1. split; [exact Hobj1 |]. split; [exact Hcom1 | exact Hres1].
    + destruct (IH (batch ++ [event])
                  (batch_tlength + event_tokens (deref (objects w) event))%Z
                  summary_tlength w)
        as (new & Hobj & Hcom & Hres); [| done | | by exists new].
      * rewrite fmap_app, sum_tokens_app, <- Hsum. cbn. lia.
      * intros _. unfold within_budget, budget.
        rewrite fmap_app, sum_tokens_app, <- Hsum, <- Hlen. cbn. lia.
Qed.

(** ** The running summary *)

(** [update_running_summary] leaves the objects that existed before it, the
    cycles and the cursor as they are; it returns the summary message of the
    state it leaves, or fails in a flush. *)
Lemma update_running_summary_spec (new_events : list loc) w :
  ∃ new,
    agree (length (objects w)) w (update_running_summary new_events w).2 ∧
    committed w (update_running_summary new_events w).2 new ∧
    match (update_running_summary new_events w).1 with
    | Ok m =>
        (summary_message (update_running_summary new_events w).2).1 = Ok m
    | Raise e => failed_flush (update_running_summary new_events w).2 new e
    end.
Proof.
  destruct new_events as [|first others].
  { exists []. cbn. split; [apply agree_refl |].
    split; [apply committed_refl | done]. }
  cbn [update_running_summary]. set (events := first :: others).
  rewrite run_bind.
  destruct (deepcopy_spec events w) as (copies & w1 & -> & Hag1 & Hq1 & Hfresh).
  rewrite run_bind. unfold normalize.
  destruct (normalize_loop_spec (length (objects w)) (length copies) 0
              copies w1 Hfresh)
    as (normal & w2 & -> & Hag2 & Hq2 & _).
  rewrite run_bind. cbn [get_world].
  apply quiet_committed in Hq1 as (new1 & Hcom1 & _).
  apply quiet_committed in Hq2 as (new2 & Hcom2 & _).
  pose proof (agree_trans _ _ _ _ Hag1 Hag2) as Hag12.
  pose proof (committed_trans _ _ _ _ _ Hcom1 Hcom2) as Hcom12.
  rewrite run_bind.
  destruct (pack_spec normal [] 0%Z (count_string_tokens (summary (self w2)))
              w2)
    as (new3 & Hobj3 & Hcom3 & Hres3); [done | done | |].
  { intros Hshort. cbn in Hshort. lia. }
  destruct (pack normal [] 0%Z _ w2) as [[batch|e] w3]; cbn in Hobj3, Hcom3, Hres3.
  - rewrite run_bind.
    assert (Hag3 : agree (length (objects w)) w w3).
    { unfold agree in *. by rewrite Hobj3. }
    pose proof (committed_trans _ _ _ _ _ Hcom12 Hcom3) as Hcom123.
    destruct batch as [|b batch].
    + rewrite run_ret. exists ((new1 ++ new2) ++ new3). cbn.
      split; [exact Hag3 |]. split; [exact Hcom123 | reflexivity].
    + destruct (summarize_batch_spec (b :: batch) w3 Hres3)
        as (new4 & Hobj4 & Hcom4 & Hres4).
      destruct (summarize_batch (b :: batch) w3) as [[[]|e] w4];
        cbn in Hobj4, Hcom4, Hres4;
        exists (((new1 ++ new2) ++ new3) ++ new4);
        rewrite ?summary_message_run; cbn [fst snd].
      * split; [unfold agree in *; by rewrite Hobj4 |].
        split; [by eapply committed_trans | done].
      * split; [unfold agree in *; by rewrite Hobj4 |].
        split; [by eapply committed_trans | by apply failed_flush_app].
  - exists ((new1 ++ new2) ++ new3). cbn.
    split; [unfold agree in *; by rewrite Hobj3 |].
    split; [by eapply committed_trans | by apply failed_flush_app].
Qed.

(** ** Trimming, step by step *)

Lemma trim_messages_run (chain : list loc) w :
  trim_messages chain w =
  let stale := new_messages_not_in_chain (objects w) (self w) chain in
  match stale with
  | [] =>
      (Ok (mkMessage "system"
             ("This reminds you of these events from your past: " +:+ nl
                +:+ summary (self w)), []), w)
  | first :: _ =>
      match update_running_summary stale w with
      | (Ok m, w') =>
          match index_in_cycles (objects w') (self w')
                  (default first (last stale)) with
          | None => (Raise ValueError, w')
          | Some i =>
              (Ok (m, stale),
               mkWorld (objects w')
                 (mkHistory (message_cycles (self w')) (summary (self w'))
                    (Z.of_nat i))
                 (service w') (trace w'))
          end
      | (Raise e, w') => (Raise e, w')
      end
  end.
Proof.
  unfold trim_messages. rewrite run_bind. cbn.
  destruct (new_messages_not_in_chain _ _ _) as [|first others]; [done |].
  rewrite run_bind.
  destruct (update_running_summary _ w) as [[m|e] w']; [| done].
  rewrite run_bind. cbn.
  by destruct (index_in_cycles _ _ _).
Qed.

Lemma py_index_lt {A} (eqb : A → bool) (l : list A) (i : nat) :
  py_index eqb l = Some i → i < length l.
Proof.
  revert i. induction l as [|x l IH]; intros i; cbn; [done |].
  destruct (eqb x); [intros [= <-]; lia |].
  destruct (py_index eqb l) as [j|]; cbn; [| done].
  intros [= <-]. specialize (IH j eq_refl). lia.
Qed.

Lemma agree_prefix w w' :
  agree (length (objects w)) w w' → objects w `prefix_of` objects w'.
Proof.
  unfold agree. rewrite firstn_all. intros Htake.
  exists (drop (length (objects w)) (objects w')).
  rewrite <- Htake at 1. by rewrite take_drop.
Qed.

(** Whatever a trim does, the objects that existed before it are left as
    they were, the cycles are the same, and the cursor is either where it
    was or at a position of the list of cycles. *)
Lemma trim_messages_frame (chain : list loc) w :
  objects w `prefix_of` objects (trim_messages chain w).2 ∧
  message_cycles (self (trim_messages chain w).2) = message_cycles (self w) ∧
  (last_trimmed_index (self (trim_messages chain w).2)
   = last_trimmed_index (self w)
   ∨ ∃ i : nat,
       last_trimmed_index (self (trim_messages chain w).2) = Z.of_nat i ∧
       i < length (message_cycles (self w))).
Proof.
  rewrite trim_messages_run. cbn zeta.
  destruct (new_messages_not_in_chain _ _ _) as [|first others] eqn:Hstale.
  { cbn. split; [done |]. split; [done | by left]. }
  destruct (update_running_summary_spec (first :: others) w)
    as (new & Hag & (Hcyc & Hcur & _) & _).
  apply agree_prefix in Hag.
  destruct (update_running_summary _ w) as [[m|e] w']; cbn in Hag, Hcyc, Hcur.
  - destruct (index_in_cycles _ _ _) as [i|] eqn:Hi; cbn.
    + split; [done |]. split; [done |]. right. exists i. split; [done |].
      apply py_index_lt in Hi. by rewrite <- Hcyc.
    + split; [done |]. split; [done | by left].
  - cbn. split; [done |]. split; [done | by left].
Qed.

Lemma py_index_never {A} (eqb : A → bool) (l : list A) :
  (∀ x, eqb x = false) → py_index eqb l = None.
Proof.
  intros Hnever. induction l as [|x l IH]; cbn; [done |].
  by rewrite Hnever, IH.
Qed.

(** X16: When no cycle compares equal to a message, which is what the equality
    that Python generates for dataclasses gives between objects of two
    classes, the lookup of line 92 always raises: a trim that finds something
    stale summarises it and then fails, and the cursor is never moved. *)
Lemma trim_without_cycle_equality (chain : list loc) w :
  (∀ cycle m, cycle_eq_message cycle m = false) →
  last_trimmed_index (self (trim_messages chain w).2)
  = last_trimmed_index (self w) ∧
  (new_messages_not_in_chain (objects w) (self w) chain ≠ [] →
   ∃ e, (trim_messages chain w).1 = Raise e).
Proof.
  intros Hnever. rewrite trim_messages_run. cbn zeta.
  destruct (new_messages_not_in_chain _ _ _) as [|first others]; [done |].
  destruct (update_running_summary_spec (first :: others) w)
    as (new & _ & (_ & Hcur & _) & _).
  destruct (update_running_summary (first :: others) w) as [[m|e] w'];
    cbn [fst snd] in Hcur.
  - unfold index_in_cycles. rewrite py_index_never by (intros; apply Hnever).
    split; [done | by exists ValueError].
  - split; [done | by exists e].
Qed.

Lemma effects_of_app {A} (m : M A) w (new : list effect) :
  trace (m w).2 = trace w ++ new → effects_of m w = new.
Proof. unfold effects_of. intros ->. by rewrite drop_app_length. Qed.

(** ** The claims of the specification *)

(** C9: for every summary [s], [summary_message()] returns a system-role
    message whose content is the framing sentence, a line break and [s], and
    leaves the store as it is; for [s = "I found a key"] the content is the
    sentence, the line break and "I found a key". *)
Theorem summary_message_framing :
  (∀ w,
     summary_message w =
     (Ok (mkMessage "system"
            ("This reminds you of these events from your past: " +:+ nl
               +:+ summary (self w))), w)) ∧
  (∀ (h : heap) cycles cursor service0 tr,
     summary_message
       (mkWorld h (mkHistory cycles "I found a key" cursor) service0 tr) =
     (Ok (mkMessage "system"
            "This reminds you of these events from your past: 
I found a key"),
      mkWorld h (mkHistory cycles "I found a key" cursor) service0 tr)).
Proof. split; reflexivity. Qed.

(** C6: when no message past the cursor is absent from the chain (by
    value), [trim_messages] returns the existing summary message and an empty
    list, sends nothing to the completion service and leaves the whole state,
    summary and cursor included, as it was. *)
Theorem trim_nothing_stale_is_noop (chain : list loc) w :
  new_messages_not_in_chain (objects w) (self w) chain = [] →
  trim_messages chain w =
  (Ok (mkMessage "system"
         ("This reminds you of these events from your past: " +:+ nl
            +:+ summary (self w)), []), w) ∧
  effects_of (trim_messages chain) w = [].
Proof.
  intros Hstale. rewrite (trim_messages_nothing_stale _ _ Hstale).
  split; [done |]. unfold effects_of.
  rewrite (trim_messages_nothing_stale _ _ Hstale). cbn. apply drop_all.
Qed.

(** C10: on a store whose cursor is 0 the candidates of a trim are the
    messages from position 1 on.  The messages trimmed and summarised are a
    sub-list of those, so the object at position 0 is not among them unless
    the same object also sits at a later position. *)
Theorem first_message_is_never_a_candidate (chain : list loc) w :
  last_trimmed_index (self w) = 0%Z →
  let stale := new_messages_not_in_chain (objects w) (self w) chain in
  new_messages (self w) = drop 1 (messages (self w)) ∧
  stale `sublist_of` drop 1 (messages (self w)) ∧
  (∀ m trimmed, (trim_messages chain w).1 = Ok (m, trimmed) → trimmed = stale) ∧
  trace (trim_messages chain w).2 = trace (update_running_summary stale w).2 ∧
  (∀ first rest,
     messages (self w) = first :: rest → first ∉ rest → first ∉ stale).
Proof.
  intros Hcursor stale. subst stale.
  assert (Hnew : new_messages (self w) = drop 1 (messages (self w))).
  { by rewrite new_messages_drop, Hcursor. }
  pose proof (not_in_chain_sublist (objects w) (self w) chain) as Hsub.
  rewrite Hnew in Hsub.
  split; [done |]. split; [done |].
  split; [| split].
  - intros m trimmed. rewrite trim_messages_run. cbn zeta.
    destruct (new_messages_not_in_chain _ _ _) as [|first others];
      [by intros [= _ <-] |].
    destruct (update_running_summary (first :: others) w) as [[m'|e] w'];
      [| done].
    destruct (index_in_cycles _ _ _); [by intros [= _ <-] | done].
  - rewrite trim_messages_run. cbn zeta.
    destruct (new_messages_not_in_chain _ _ _) as [|first others]; [done |].
    destruct (update_running_summary (first :: others) w) as [[m'|e] w'];
      [| done].
    by destruct (index_in_cycles _ _ _).
  - intros first rest Hflat Hfirst Hin. apply Hfirst.
    rewrite Hflat in Hsub. cbn in Hsub.
    by apply (sublist_subseteq _ _ Hsub).
Qed.

(** C8: [update_running_summary] works on a deep copy: every [Message]
    object that existed before the call, those of the caller's [new_events]
    among them, has the role and the content it had; the same holds across
    [trim_messages], for the messages it returns. *)
Theorem deepcopy_protects_callers_messages (new_events chain : list loc) w :
  objects w `prefix_of` objects (update_running_summary new_events w).2 ∧
  objects w `prefix_of` objects (trim_messages chain w).2.
Proof.
  split.
  - destruct (update_running_summary_spec new_events w) as (new & Hag & _).
    by apply agree_prefix.
  - apply trim_messages_frame.
Qed.

(** C3 (as amended): every batch of two events or more that
    [update_running_summary] sends to the completion service has a token
    sum of at most [max_tokens - 100 - tokens(summary)], for the summary in
    place when the batch was started, which is the summary the call is made
    under. *)
Theorem long_batches_within_budget (new_events : list loc) w :
  budget_respected_by_long_batches
    (effects_of (update_running_summary new_events) w).
Proof.
  destruct (update_running_summary_spec new_events w)
    as (new & _ & (_ & _ & Htrace & Hbudget & _) & _).
  by rewrite (effects_of_app _ _ _ Htrace).
Qed.

(** C5: when a flush of the summarisation fails, [trim_messages] fails with
    the same exception, a failure of the completion service; the cursor is
    where it was before the call, and the summary is the answer of the last
    flush that succeeded (the summary of before the call if none did): the
    last entry of the trace is the failed call, made under that summary. *)
Theorem failed_flush_keeps_cursor (chain : list loc) w (e : exn) w' :
  update_running_summary
    (new_messages_not_in_chain (objects w) (self w) chain) w = (Raise e, w') →
  trim_messages chain w = (Raise e, w') ∧
  (∃ reason, e = CompletionServiceFailure reason) ∧
  last_trimmed_index (self w') = last_trimmed_index (self w) ∧
  message_cycles (self w') = message_cycles (self w) ∧
  ∃ pre batch prompt,
    trace w' = trace w ++ pre
                 ++ [ChatCompletion (summary (self w')) batch prompt] ∧
    summary (self w') = last_answer (summary (self w)) pre.
Proof.
  intros Hrun.
  destruct (update_running_summary_spec
              (new_messages_not_in_chain (objects w) (self w) chain) w)
    as (new & _ & (Hcyc & Hcur & Htrace & _ & Hsum) & Hres).
  rewrite Hrun in Hcyc, Hcur, Htrace, Hsum, Hres. cbn in *.
  destruct Hres as (reason & pre & batch & prompt & -> & ->).
  split; [| split; [by exists reason | split; [done | split; [done |]]]].
  - rewrite trim_messages_run. cbn zeta.
    destruct (new_messages_not_in_chain _ _ _) as [|first others];
      [done | by rewrite Hrun].
  - exists pre, batch, prompt. split; [done |].
    by rewrite Hsum, last_answer_app.
Qed.

(** ** Normalising an assistant message *)

Lemma dict_has_del_same (key : string) (d : dict) :
  dict_has key (dict_del key d) = false.
Proof.
  unfold dict_has, dict_del. induction d as [|kv d IH]; [done |].
  rewrite filter_cons. case_decide as Hkey; [| done].
  cbn. by rewrite IH, bool_decide_eq_false_2.
Qed.

Lemma dict_has_del_other (key key' : string) (d : dict) :
  key' ≠ key → dict_has key' (dict_del key d) = dict_has key' d.
Proof.
  intros Hne. unfold dict_has, dict_del. induction d as [|kv d IH]; [done |].
  rewrite filter_cons. case_decide as Hkey; cbn; rewrite IH; [done |].
  rewrite bool_decide_eq_false_2; [done |]. congruence.
Qed.

Lemma dict_del_absent (key : string) (d : dict) :
  dict_has key d = false → dict_del key d = d.
Proof.
  unfold dict_has, dict_del. induction d as [|kv d IH]; [done |].
  cbn [existsb]. intros [Hkv Hd]%orb_false_elim.
  apply bool_decide_eq_false in Hkv.
  rewrite filter_cons_True by done. by rewrite IH.
Qed.

(** One turn on an assistant message: an assistant-role event that the loop
    reaches is relabelled "you"
    and its turn never raises, so the loop goes on with the next position.
    When its content parses, the new content is the JSON text of the parsed
    object without its "thoughts" key and with its other keys (an "action"
    key stays); when it does not parse, the content stays as it was and a
    diagnostic carrying the parser's message is logged. *)
Theorem assistant_event_normalized (event : loc) (events : list loc) w :
  event < length (objects w) →
  lower (role (deref (objects w) event)) = "assistant" →
  let m := deref (objects w) event in
  let w' := (normalize_event event events w).2 in
  (normalize_event event events w).1 = Ok events ∧
  (∀ turns i, events !! i = Some event →
     normalize_loop (S turns) i events w = normalize_loop turns (S i) events w') ∧
  role (deref (objects w') event) = "you" ∧
  match extract_json_from_response (content m) with
  | inr d =>
      content (deref (objects w') event) = json_dumps (dict_del "thoughts" d) ∧
      dict_has "thoughts" (dict_del "thoughts" d) = false ∧
      (∀ key, key ≠ "thoughts" →
         dict_has key (dict_del "thoughts" d) = dict_has key d) ∧
      trace w' = trace w
  | inl err =>
      content (deref (objects w') event) = content m ∧
      trace w' =
      trace w ++ LoggerError ("Error: Invalid JSON: " +:+ err)
        :: (if debug_mode then [LoggerError (content m)] else [])
  end.
Proof.
  intros Hlt Hrole m w'.
  assert (Hrun : normalize_event event events w
                 = (Ok events, w') ∧
                 role (deref (objects w') event) = "you" ∧
                 match extract_json_from_response (content m) with
                 | inr d =>
                     content (deref (objects w') event)
                     = json_dumps (dict_del "thoughts" d) ∧ trace w' = trace w
                 | inl err =>
                     content (deref (objects w') event) = content m ∧
                     trace w' =
                     trace w ++ LoggerError ("Error: Invalid JSON: " +:+ err)
                       :: (if debug_mode then [LoggerError (content m)]
                           else [])
                 end).
  { subst w' m. unfold normalize_event. rewrite run_bind. cbn.
    rewrite decide_True by done.
    destruct (extract_json_from_response
                (content (deref (objects w) event))) as [err|d] eqn:Hjson.
    - destruct debug_mode eqn:Hdebug;
        unfold set_role, emit, set_objects, get_world;
        repeat (rewrite run_bind; cbn); rewrite ?Hdebug; cbn;
        unfold deref; rewrite list_lookup_total_insert_eq by done; cbn;
        rewrite <- ?app_assoc; done.
    - unfold set_role, set_content, set_objects, get_world.
      repeat (rewrite run_bind; cbn).
      unfold deref. rewrite !list_lookup_total_insert_eq
        by (rewrite ?length_insert; done).
      cbn. split; [done |]. split; [done |]. split; [| done].
      destruct (dict_has "thoughts" d) eqn:Hhas; [done |].
      by rewrite dict_del_absent. }
  destruct Hrun as (Hrun & Hyou & Hcontent).
  split; [by rewrite Hrun |]. split.
  { intros turns i Hi. cbn [normalize_loop]. by rewrite Hi, run_bind, Hrun. }
  split; [done |].
  destruct (extract_json_from_response (content m)) as [err|d]; [done |].
  destruct Hcontent as [Hc Ht]. split; [done |].
  split; [apply dict_has_del_same |].
  split; [| done]. intros key Hkey. by apply dict_has_del_other.
Qed.

(** C4: the event that follows a removed user message is skipped.  From
    [user, user] the second user message survives normalisation; from
    [user, assistant] the assistant message is left with its role. *)
Theorem user_removal_skips_next_event (a b : string) (s : MessageHistory)
    (service0 : Service) (tr : list effect) :
  normalize [0; 1]
    (mkWorld [mkMessage "user" a; mkMessage "user" b] s service0 tr)
  = (Ok [1], mkWorld [mkMessage "user" a; mkMessage "user" b] s service0 tr) ∧
  normalize [0; 1]
    (mkWorld [mkMessage "user" a; mkMessage "assistant" b] s service0 tr)
  = (Ok [1],
     mkWorld [mkMessage "user" a; mkMessage "assistant" b] s service0 tr).
Proof. split; reflexivity. Qed.

(** ** Where the cursor goes *)

Lemma not_in_empty_chain (h : heap) (s : MessageHistory) :
  new_messages_not_in_chain h s [] = new_messages s.
Proof.
  unfold new_messages_not_in_chain.
  induction (new_messages s) as [|x l IH]; [done |].
  rewrite filter_cons_True.
  - f_equal. exact IH.
  - unfold py_in. by inversion 1.
Qed.

Lemma py_in_singleton (h : heap) (x y : loc) :
  py_in h x [y] ↔ y = x ∨ deref h y = deref h x.
Proof.
  unfold py_in. rewrite Exists_cons, Exists_nil. tauto.
Qed.

(** C1: with the four messages in two cycles of two, a trim under the chain
    [m2] finds [m1, m3] stale, and whatever the collaborators do the cursor
    ends at 0 or 1, never at 3: line 92 looks [m3] up in the list of
    cycles, which has two elements. *)
Theorem trim_chain_diff_cursor (m0 m1 m2 m3 : Message) (summary0 : string)
    (service0 : Service) (tr : list effect) :
  m1 ≠ m2 → m3 ≠ m2 →
  let w := mkWorld [m0; m1; m2; m3]
             (mkHistory [mkCycle [0; 1]; mkCycle [2; 3]] summary0 0)
             service0 tr in
  messages (self w) = [0; 1; 2; 3] ∧
  new_messages_not_in_chain (objects w) (self w) [2] = [1; 3] ∧
  (0 ≤ last_trimmed_index (self (trim_messages [2%nat] w).2) < 2)%Z.
Proof.
  intros H12 H32 w. split; [done |]. split.
  - assert (Hnew : new_messages (self w) = [1; 2; 3])
      by (by rewrite new_messages_drop).
    unfold new_messages_not_in_chain. rewrite Hnew.
    rewrite filter_cons_True.
    2:{ intros [Hid|Heq]%py_in_singleton; [done | by cbn in Heq]. }
    rewrite filter_cons_False.
    2:{ intros Hout. apply Hout, py_in_singleton. by left. }
    rewrite filter_cons_True; [done |].
    intros [Hid|Heq]%py_in_singleton; [done | by cbn in Heq].
  - destruct (trim_messages_frame [2] w) as (_ & _ & [Hc | (i & Hc & Hi)]);
      rewrite Hc; cbn in *; lia.
Qed.

(** Under another reading of [cycle == message] the cursor can move back.
    Four cycles of one message each hold
    [a], [b], [c] and a second message equal to [b].  When a cycle of one
    message compares equal to exactly the messages equal to its own, a first
    trim under the chain [b] leaves the cursor at 2 and a second trim under
    the empty chain moves it to 1: line 92 takes the first position that
    matches. *)
Theorem cursor_moves_back (a b c : Message) (summary0 : string)
    (service0 : Service) (tr : list effect) r1 w1 r2 w2 :
  (∀ x y, cycle_eq_message [x] y = bool_decide (x = y)) →
  a ≠ b → a ≠ c → b ≠ c →
  let w0 := mkWorld [a; b; c; b]
              (mkHistory [mkCycle [0]; mkCycle [1]; mkCycle [2]; mkCycle [3]]
                 summary0 0)
              service0 tr in
  trim_messages [1] w0 = (Ok r1, w1) →
  trim_messages [] w1 = (Ok r2, w2) →
  last_trimmed_index (self w1) = 2%Z ∧ last_trimmed_index (self w2) = 1%Z.
Proof.
  intros Hcmp Hab Hac Hbc w0 Hrun1 Hrun2.
  assert (Hstale1 : new_messages_not_in_chain (objects w0) (self w0) [1] = [2]).
  { assert (Hnew : new_messages (self w0) = [1; 2; 3])
      by (by rewrite new_messages_drop).
    unfold new_messages_not_in_chain. rewrite Hnew.
    rewrite filter_cons_False.
    2:{ intros Hout. apply Hout, py_in_singleton. by left. }
    rewrite filter_cons_True.
    2:{ intros [Hid|Heq]%py_in_singleton; [done | by cbn in Heq]. }
    rewrite filter_cons_False; [done |].
    intros Hout. apply Hout, py_in_singleton. by right. }
  (* the first trim *)
  rewrite trim_messages_run in Hrun1. cbn zeta in Hrun1.
  rewrite Hstale1 in Hrun1.
  destruct (update_running_summary_spec [2] w0)
    as (new1 & Hag1 & (Hcyc1 & _) & _).
  apply agree_prefix in Hag1 as [k1 Hobj1].
  destruct (update_running_summary [2] w0) as [[ma|ea] wa]; [| done].
  cbn [fst snd] in Hobj1, Hcyc1.
  assert (Hidx1 : index_in_cycles (objects wa) (self wa) 2 = Some 2).
  { unfold index_in_cycles. rewrite Hcyc1, Hobj1. cbn.
    rewrite !Hcmp.
    rewrite (bool_decide_eq_false_2 (a = c)) by done.
    rewrite (bool_decide_eq_false_2 (b = c)) by done.
    by rewrite (bool_decide_eq_true_2 (c = c)). }
  change (default 2 (last [2])) with 2 in Hrun1. rewrite Hidx1 in Hrun1.
  injection Hrun1 as _ Hw1.
  assert (Hobj_w1 : objects w1 = [a; b; c; b] ++ k1) by (by rewrite <- Hw1).
  assert (Hself1 : self w1
                   = mkHistory [mkCycle [0]; mkCycle [1]; mkCycle [2];
                                mkCycle [3]] (summary (self wa)) 2).
  { rewrite <- Hw1. cbn. by rewrite Hcyc1. }
  split; [by rewrite Hself1 |].
  (* the second trim *)
  assert (Hstale2 : new_messages_not_in_chain (objects w1) (self w1) [] = [3])
    by (by rewrite not_in_empty_chain, new_messages_drop, Hself1).
  rewrite trim_messages_run in Hrun2. cbn zeta in Hrun2.
  rewrite Hstale2 in Hrun2.
  destruct (update_running_summary_spec [3] w1)
    as (new2 & Hag2 & (Hcyc2 & _) & _).
  apply agree_prefix in Hag2 as [k2 Hobj2].
  destruct (update_running_summary [3] w1) as [[mb|eb] wb]; [| done].
  cbn [fst snd] in Hobj2, Hcyc2.
  assert (Hidx2 : index_in_cycles (objects wb) (self wb) 3 = Some 1).
  { unfold index_in_cycles. rewrite Hcyc2, Hself1, Hobj2, Hobj_w1. cbn.
    rewrite !Hcmp.
    rewrite (bool_decide_eq_false_2 (a = b)) by done.
    by rewrite (bool_decide_eq_true_2 (b = b)). }
  change (default 3 (last [3])) with 3 in Hrun2. rewrite Hidx2 in Hrun2.
  by injection Hrun2 as _ <-.
Qed.

End Properties.

(** * Concrete runs *)

(** Under a chain that holds [m1], [m2] and [m3] nothing is stale. *)
Lemma trim_nothing_stale_is_noop_witness :
  let w := @mkWorld lookup_env [m0; m1; m2; m3] two_cycles 0 [] in
  new_messages_not_in_chain (objects w) (self w) [3; 2; 1] = [] ∧
  trim_messages [3; 2; 1] w =
  (Ok (mkMessage "system"
         "This reminds you of these events from your past: 
I was created", []), w) ∧
  effects_of (trim_messages [3; 2; 1]) w = [].
Proof.
  intros w. split; [reflexivity |].
  apply (trim_nothing_stale_is_noop [3; 2; 1] w). reflexivity.
Defined.

(** On the history of the example the cursor is 0: [m0] is not a
    candidate, whatever the chain. *)
Lemma first_message_is_never_a_candidate_witness :
  let w := @mkWorld lookup_env [m0; m1; m2; m3] two_cycles 0 [] in
  last_trimmed_index (self w) = 0%Z ∧
  new_messages (self w) = [1; 2; 3] ∧
  0 ∉ new_messages_not_in_chain (objects w) (self w) [].
Proof.
  intros w. split; [reflexivity |].
  destruct (first_message_is_never_a_candidate [] w eq_refl)
    as (Hnew & _ & _ & _ & Hfirst).
  split; [exact Hnew |].
  apply (Hfirst 0 [1; 2; 3] eq_refl).
  apply (bool_decide_unpack (0 ∉ [1; 2; 3])). vm_compute. exact I.
Defined.

(** The trim example, run under both readings of [cycle == message]: the
    lookup of line 92 raises [ValueError], or finds the second cycle and
    leaves the cursor at 1. *)
Lemma trim_chain_diff_cursor_witness :
  m1 ≠ m2 ∧ m3 ≠ m2 ∧
  (let w := @mkWorld dataclass_env [m0; m1; m2; m3] two_cycles 0 [] in
   new_messages_not_in_chain (objects w) (self w) [2] = [1; 3] ∧
   (0 ≤ last_trimmed_index (self (trim_messages [2%nat] w).2) < 2)%Z ∧
   (trim_messages [2] w).1 = Raise ValueError) ∧
  (let w := @mkWorld lookup_env [m0; m1; m2; m3] two_cycles 0 [] in
   new_messages_not_in_chain (objects w) (self w) [2] = [1; 3] ∧
   (0 ≤ last_trimmed_index (self (trim_messages [2%nat] w).2) < 2)%Z ∧
   last_trimmed_index (self (trim_messages [2] w).2) = 1%Z).
Proof.
  assert (H12 : m1 ≠ m2) by done.
  assert (H32 : m3 ≠ m2) by done.
  split; [exact H12 |]. split; [exact H32 |]. split.
  - destruct (@trim_chain_diff_cursor dataclass_env m0 m1 m2 m3
                "I was created" 0 [] H12 H32) as (_ & Hstale & Hcursor).
    split; [exact Hstale |]. split; [exact Hcursor | by vm_compute].
  - destruct (@trim_chain_diff_cursor lookup_env m0 m1 m2 m3
                "I was created" 0 [] H12 H32) as (_ & Hstale & Hcursor).
    split; [exact Hstale |]. split; [exact Hcursor | by vm_compute].
Defined.

Lemma holds_message_singleton (x y : Message) :
  holds_message [x] y = bool_decide (x = y).
Proof.
  unfold holds_message. apply bool_decide_ext.
  rewrite list_elem_of_singleton. split; congruence.
Defined.

(** Two trims in a row on the history of four cycles: the cursor goes from
    0 to 2 and then back to 1. *)
Lemma cursor_moves_back_witness :
  let w0 := @mkWorld lookup_env [m0; m1; m2; m1] four_cycles 0 [] in
  let w1 := (trim_messages [1] w0).2 in
  let w2 := (trim_messages [] w1).2 in
  (∀ x y, holds_message [x] y = bool_decide (x = y)) ∧
  m0 ≠ m1 ∧ m0 ≠ m2 ∧ m1 ≠ m2 ∧
  (trim_messages [1] w0).1
  = Ok (mkMessage "system"
          "This reminds you of these events from your past: 
summary 0", [2]) ∧
  (trim_messages [] w1).1
  = Ok (mkMessage "system"
          "This reminds you of these events from your past: 
summary 1", [3]) ∧
  last_trimmed_index (self w1) = 2%Z ∧ last_trimmed_index (self w2) = 1%Z.
Proof.
  intros w0 w1 w2.
  assert (H01 : m0 ≠ m1) by done.
  assert (H02 : m0 ≠ m2) by done.
  assert (H12 : m1 ≠ m2) by done.
  assert (Hrun1 : (trim_messages [1] w0).1
                  = Ok (mkMessage "system"
                          "This reminds you of these events from your past: 
summary 0", [2])) by (vm_compute; reflexivity).
  assert (Hrun2 : (trim_messages [] w1).1
                  = Ok (mkMessage "system"
                          "This reminds you of these events from your past: 
summary 1", [3])) by (vm_compute; reflexivity).
  split; [exact holds_message_singleton |].
  split; [exact H01 |]. split; [exact H02 |]. split; [exact H12 |].
  split; [exact Hrun1 |]. split; [exact Hrun2 |].
  eapply (@cursor_moves_back lookup_env m0 m1 m2 "I was created" 0 []
            _ w1 _ w2 holds_message_singleton H01 H02 H12).
  - exact (eq_trans (surjective_pairing (trim_messages [1] w0))
             (f_equal (λ r, (r, w1)) Hrun1)).
  - exact (eq_trans (surjective_pairing (trim_messages [] w1))
             (f_equal (λ r, (r, w2)) Hrun2)).
Defined.

(** Three flushes are planned and the second one fails: the summary is the
    answer of the first, two completion calls were made, the cursor is
    still 0. *)
Lemma failed_flush_keeps_cursor_witness :
  let w := @mkWorld flaky_env [m0; long_event; long_event; long_event]
             two_cycles 0 [] in
  let stale := new_messages_not_in_chain (objects w) (self w) [] in
  let w' := (update_running_summary stale w).2 in
  update_running_summary stale w
  = (Raise (CompletionServiceFailure "service unavailable"), w') ∧
  trim_messages [] w
  = (Raise (CompletionServiceFailure "service unavailable"), w') ∧
  last_trimmed_index (self w') = 0%Z ∧
  summary (self w') = "summary 0" ∧
  length (completions (trace w')) = 2.
Proof.
  intros w stale w'.
  assert (Hrun : update_running_summary stale w
                 = (Raise (CompletionServiceFailure "service unavailable"),
                    w')) by (vm_compute; reflexivity).
  destruct (failed_flush_keeps_cursor [] w _ w' Hrun)
    as (Htrim & _ & Hcursor & _).
  split; [exact Hrun |]. split; [exact Htrim |].
  split; [exact Hcursor |]. split; vm_compute; reflexivity.
Defined.

(** The two assistant messages of the example: the first loses its
    "thoughts", the second does not parse, keeps its content and is
    reported. *)
Lemma assistant_event_normalized_witness :
  let w := @mkWorld lookup_env [m0; m1; m2; m3] two_cycles 0 [] in
  (1 < length (objects w) ∧ lower (role (deref (objects w) 1)) = "assistant") ∧
  (3 < length (objects w) ∧ lower (role (deref (objects w) 3)) = "assistant") ∧
  deref (objects (normalize_event 1 [1; 3] w).2) 1
  = mkMessage "you" action_only ∧
  trace (normalize_event 1 [1; 3] w).2 = [] ∧
  deref (objects (normalize_event 3 [1; 3] w).2) 3
  = mkMessage "you" "I am not JSON" ∧
  trace (normalize_event 3 [1; 3] w).2
  = [LoggerError "Error: Invalid JSON: Expecting value"].
Proof.
  intros w.
  assert (H1 : 1 < length (objects w)) by (cbn; lia).
  assert (H3 : 3 < length (objects w)) by (cbn; lia).
  assert (R1 : lower (role (deref (objects w) 1)) = "assistant")
    by reflexivity.
  assert (R3 : lower (role (deref (objects w) 3)) = "assistant")
    by reflexivity.
  destruct (assistant_event_normalized 1 [1; 3] w H1 R1)
    as (_ & _ & Hrole1 & Hparsed).
  destruct (assistant_event_normalized 3 [1; 3] w H3 R3)
    as (_ & _ & Hrole3 & Hfailed).
  vm_compute in Hparsed. destruct Hparsed as (Hcontent1 & _ & _ & Htrace1).
  vm_compute in Hfailed. destruct Hfailed as (Hcontent3 & Htrace3).
  split; [by split |]. split; [by split |].
  vm_compute. by repeat split.
Defined.

Lemma budget_respected_not_over `{Env} (tr : list effect) :
  budget_respected tr → existsb over_budget tr = false.
Proof.
  induction 1 as [|e tr He _ IH]; [done |].
  cbn. rewrite IH, orb_false_r.
  destruct e as [| |s batch prompt]; [done | done |].
  cbn. apply bool_decide_eq_false_2. unfold within_budget in He. lia.
Qed.

(** C3, as stated, fails: an event of 5015 tokens is sent alone, under a
    budget of 3987 tokens. *)
Lemma oversize_event_breaks_budget :
  ¬ @budget_respected dataclass_env
      (effects_of (update_running_summary [0])
         (@mkWorld dataclass_env [oversize_event] fresh_history 0 [])).
Proof.
  intros Hall. apply budget_respected_not_over in Hall.
  vm_compute in Hall. discriminate.
Qed.

(** The flaw of C4 as the completion service sees it: the batch sent for
    [user, user, system] still holds the second user message. *)
Lemma user_message_reaches_the_summary :
  completions
    (effects_of (update_running_summary [0; 1; 2])
       (@mkWorld dataclass_env
          [mkMessage "user" "a"; mkMessage "user" "b"; mkMessage "system" "c"]
          fresh_history 0 []))
  = [ChatCompletion "I was created"
       [mkMessage "user" "b"; mkMessage "your computer" "c"]
       (@summary_prompt dataclass_env "I was created"
          [mkMessage "user" "b"; mkMessage "your computer" "c"])].
Proof. vm_compute. reflexivity. Qed.

(** * More properties of the code *)

Section MoreProperties.
Context {env : Env}.

(** ** The store: appending and reading *)

Lemma getitem_nat (s : MessageHistory) (i : nat) :
  getitem s (Z.of_nat i) = message_cycles s !! i.
Proof.
  unfold getitem. cbn zeta. case_decide as Hin.
  - by rewrite Nat2Z.id.
  - rewrite decide_False by lia. symmetry. apply lookup_ge_None. lia.
Qed.

(** X1: [history[i]] is defined exactly for [-len <= i < len], and then it is
    the cycle at position [i mod len]. *)
Theorem getitem_wraps (s : MessageHistory) (i : Z) :
  let n := Z.of_nat (len s) in
  getitem s i =
  (if decide (- n ≤ i < n)%Z then message_cycles s !! Z.to_nat (i `mod` n)
   else None) ∧
  (is_Some (getitem s i) ↔ (- n ≤ i < n)%Z).
Proof.
  intros n. subst n. unfold len.
  assert (Heq : getitem s i =
    if decide (- Z.of_nat (length (message_cycles s)) ≤ i
               < Z.of_nat (length (message_cycles s)))%Z
    then message_cycles s !! Z.to_nat
           (i `mod` Z.of_nat (length (message_cycles s)))
    else None).
  { unfold getitem. cbn zeta. repeat case_decide; try lia; try done.
    - by rewrite Z.mod_small by lia.
    - f_equal. f_equal.
      rewrite <- (Z.mod_add i 1) by lia. rewrite Z.mod_small by lia. lia. }
  split; [exact Heq |]. rewrite Heq. case_decide as Hin.
  - split; [done | intros _].
    apply lookup_lt_is_Some.
    pose proof (Z.mod_pos_bound i (Z.of_nat (length (message_cycles s)))).
    lia.
  - split; [by intros [? ?] | done].
Qed.

Lemma append_run (c : MessageCycle) w :
  append c w =
  (Ok (),
   mkWorld (objects w)
     (mkHistory (message_cycles (self w) ++ [c]) (summary (self w))
        (last_trimmed_index (self w)))
     (service w) (trace w)).
Proof. reflexivity. Qed.

Lemma messages_snoc (cycles : list MessageCycle) (c : MessageCycle)
    (s : string) (i : Z) :
  messages (mkHistory (cycles ++ [c]) s i)
  = messages (mkHistory cycles s i) ++ cycle_messages c.
Proof.
  unfold messages. cbn. rewrite fmap_app, concat_app. cbn.
  by rewrite app_nil_r.
Qed.

(** X2: [append] (and [add], which is the same) never fails and touches nothing
    but the list of cycles: the new cycle becomes the last one, [len] grows
    by one, the cycles already stored keep their positions, and the messages
    of the new cycle come after all the others in the flattened sequence. *)
Theorem append_then_read (c : MessageCycle) w :
  let w' := (append c w).2 in
  add c w = append c w ∧
  (append c w).1 = Ok () ∧
  len (self w') = S (len (self w)) ∧
  getitem (self w') (-1) = Some c ∧
  (∀ i : nat,
     getitem (self w') (Z.of_nat i) =
     if decide (i = len (self w)) then Some c
     else getitem (self w) (Z.of_nat i)) ∧
  messages (self w') = messages (self w) ++ cycle_messages c ∧
  summary (self w') = summary (self w) ∧
  last_trimmed_index (self w') = last_trimmed_index (self w) ∧
  objects w' = objects w ∧ service w' = service w ∧ trace w' = trace w.
Proof.
  intros w'. subst w'. unfold add. rewrite append_run. cbn.
  split; [done |]. split; [done |].
  split; [unfold len; cbn; rewrite length_app; cbn; lia |].
  split.
  { unfold getitem. cbn. rewrite length_app. cbn.
    rewrite decide_False by lia. rewrite decide_True by lia.
    replace (Z.to_nat (Z.of_nat (length (message_cycles (self w)) + 1) + -1))
      with (length (message_cycles (self w)) + 0) by lia.
    by rewrite lookup_app_r, Nat.add_comm, Nat.add_sub by lia. }
  split.
  { intros i. rewrite !getitem_nat. cbn. unfold len. case_decide as Hi.
    - subst i. by rewrite list_lookup_middle.
    - destruct (decide (i < length (message_cycles (self w)))).
      + by rewrite lookup_app_l.
      + rewrite !lookup_ge_None_2; [done | lia |].
        rewrite length_app. cbn. lia. }
  split; [| done].
  unfold messages. cbn. rewrite fmap_app, concat_app. cbn.
  by rewrite app_nil_r.
Qed.

(** X3: The candidates of a trim after [append]: those of before, followed by
    the messages of the new cycle, less the first ones when the cursor is
    past the end of the history. *)
Theorem append_extends_candidates (c : MessageCycle) w :
  new_messages (self (append c w).2) =
  new_messages (self w)
    ++ drop (Z.to_nat (last_trimmed_index (self w) + 1)
             - length (messages (self w))) (cycle_messages c).
Proof.
  rewrite append_run. cbn [snd self].
  rewrite !new_messages_drop, messages_snoc, history_eta. cbn.
  by rewrite drop_app.
Qed.

(** ** Trimming: what is returned *)

(** X4: The messages that a trim finds stale are, in the order of the history,
    the messages at a position past the cursor that the chain does not hold
    (by identity or by value); under an empty chain they are all the
    messages past the cursor. *)
Theorem trimmed_messages_characterised (h : heap) (s : MessageHistory)
    (chain : list loc) :
  new_messages_not_in_chain h s chain =
  filter (λ msg, ¬ py_in h msg chain)
    (drop (Z.to_nat (last_trimmed_index s + 1)) (messages s)) ∧
  new_messages_not_in_chain h s [] =
  drop (Z.to_nat (last_trimmed_index s + 1)) (messages s) ∧
  (∀ x, x ∈ new_messages_not_in_chain h s chain ↔
        ¬ py_in h x chain ∧
        ∃ i : nat, (last_trimmed_index s < Z.of_nat i)%Z ∧
                   messages s !! i = Some x).
Proof.
  split; [| split].
  - unfold new_messages_not_in_chain. by rewrite new_messages_drop.
  - by rewrite not_in_empty_chain, new_messages_drop.
  - intros x. unfold new_messages_not_in_chain.
    rewrite list_elem_of_filter, new_messages_drop.
    rewrite list_elem_of_lookup.
    split; intros [Hout Hpos]; (split; [done |]).
    + destruct Hpos as [j Hj]. rewrite lookup_drop in Hj.
      exists (Z.to_nat (last_trimmed_index s + 1) + j). split; [lia | done].
    + destruct Hpos as (i & Hi & Hx).
      exists (i - Z.to_nat (last_trimmed_index s + 1)).
      rewrite lookup_drop. rewrite <- Hx. f_equal. lia.
Qed.

(** X5: A trim on a store whose cursor is at the last message or past it (an
    empty history included) returns the summary message and an empty list
    and changes nothing, whatever the chain. *)
Theorem trim_past_the_end_is_noop (chain : list loc) w :
  (Z.of_nat (length (messages (self w))) ≤ last_trimmed_index (self w) + 1)%Z →
  trim_messages chain w =
  (Ok (mkMessage "system"
         ("This reminds you of these events from your past: " +:+ nl
            +:+ summary (self w)), []), w).
Proof.
  intros Hend. apply trim_messages_nothing_stale.
  unfold new_messages_not_in_chain.
  rewrite new_messages_drop, drop_ge by lia. done.
Qed.

Lemma py_index_first {A} (eqb : A → bool) (l : list A) (i : nat) :
  py_index eqb l = Some i →
  ∃ x, l !! i = Some x ∧ eqb x = true ∧
       ∀ j y, j < i → l !! j = Some y → eqb y = false.
Proof.
  revert i. induction l as [|x l IH]; intros i; cbn; [done |].
  destruct (eqb x) eqn:Hx.
  - intros [= <-]. exists x. split; [done |]. split; [done |]. lia.
  - destruct (py_index eqb l) as [k|]; cbn; [| done].
    intros [= <-]. destruct (IH k eq_refl) as (y & Hy & Hmatch & Hfirst).
    exists y. split; [done |]. split; [done |].
    intros [|j] z Hj; cbn; [by intros [= <-] |].
    apply Hfirst. lia.
Qed.

(** X6: A trim that returns: the list returned is the list of stale messages,
    the message returned frames the summary that the store now holds, which
    is the last answer of the completion service if it was called; the cycles
    are the same.  If nothing was stale the state is unchanged; otherwise
    the cursor is the position of the first cycle that compares equal to the
    last stale message. *)
Theorem trim_success (chain : list loc) w (m : Message) (trimmed : list loc)
    w' :
  trim_messages chain w = (Ok (m, trimmed), w') →
  trimmed = new_messages_not_in_chain (objects w) (self w) chain ∧
  m = mkMessage "system"
        ("This reminds you of these events from your past: " +:+ nl
           +:+ summary (self w')) ∧
  summary (self w')
  = last_answer (summary (self w)) (drop (length (trace w)) (trace w')) ∧
  message_cycles (self w') = message_cycles (self w) ∧
  match last trimmed with
  | None => w' = w
  | Some last_message =>
      ∃ (i : nat) (cycle : MessageCycle),
        last_trimmed_index (self w') = Z.of_nat i ∧
        message_cycles (self w) !! i = Some cycle ∧
        cycle_eq_message (deref (objects w') <$> cycle_messages cycle)
          (deref (objects w') last_message) = true ∧
        ∀ (j : nat) (earlier : MessageCycle),
          j < i → message_cycles (self w) !! j = Some earlier →
          cycle_eq_message (deref (objects w') <$> cycle_messages earlier)
            (deref (objects w') last_message) = false
  end.
Proof.
  rewrite trim_messages_run. cbn zeta.
  destruct (new_messages_not_in_chain _ _ _) as [|first others] eqn:Hstale.
  { intros [= <- <- <-]. cbn. rewrite drop_all. by repeat split. }
  destruct (update_running_summary_spec (first :: others) w)
    as (new & _ & (Hcyc & _ & Htrace & _ & Hsum) & Hres).
  destruct (update_running_summary (first :: others) w) as [[m'|e] w1];
    [| done].
  cbn [fst snd] in Hcyc, Htrace, Hsum, Hres.
  rewrite summary_message_run in Hres. cbn in Hres. injection Hres as <-.
  destruct (index_in_cycles _ _ _) as [i|] eqn:Hi; [| done].
  intros [= <- <- <-]. cbn [self objects trace summary message_cycles
                                 last_trimmed_index].
  split; [done |]. split; [done |].
  split; [by rewrite Htrace, drop_app_length |].
  split; [done |].
  destruct (last (first :: others)) as [last_message|] eqn:Hlast.
  2:{ rewrite last_lookup in Hlast. cbn in Hlast.
      apply lookup_ge_None in Hlast. cbn in Hlast. lia. }
  cbn [default from_option] in Hi. unfold index_in_cycles in Hi.
  apply py_index_first in Hi as (cycle & Hcycle & Hmatch & Hfirst).
  rewrite Hcyc in Hcycle. exists i, cycle.
  split; [done |]. split; [done |]. split; [done |].
  intros j earlier Hj Hearlier. apply (Hfirst j earlier Hj).
  by rewrite Hcyc.
Qed.

(** ** The deep copy *)

Lemma deepcopy_from_copies (h0 : heap) (l : list loc) :
  ∀ (memo : gmap loc loc) (h : heap),
    memo_ok h0 memo h →
    Forall (λ x, x < length h0) l →
    ∃ memo',
      memo ⊆ memo' ∧
      memo_ok h0 memo' (deepcopy_from memo h l).1 ∧
      Forall2 (λ x x', memo' !! x = Some x') l (deepcopy_from memo h l).2.
Proof.
  induction l as [|x l IH]; intros memo h Hok Hvalid; cbn.
  - exists memo. split; [done |]. split; [done | constructor].
  - apply Forall_cons in Hvalid as [Hx Hvalid].
    destruct (memo !! x) as [x'|] eqn:Hmemo.
    + destruct (IH memo h Hok Hvalid) as (memo' & Hsub & Hok' & Hall).
      destruct (deepcopy_from memo h l) as [h' l']. cbn in *.
      exists memo'. split; [done |]. split; [done |].
      constructor; [by eapply lookup_weaken | done].
    + destruct Hok as (Hpre & Hentries & Hinj).
      pose proof (prefix_length _ _ Hpre) as Hlen.
      assert (Hvalue : h !! x = h0 !! x).
      { destruct (lookup_lt_is_Some_2 h0 x Hx) as [v Hv].
        rewrite Hv. by eapply prefix_lookup_Some. }
      destruct (IH (<[x := length h]> memo) (h ++ [deref h x]))
        as (memo' & Hsub & Hok' & Hall); [| done |].
      { split; [| split].
        - etrans; [exact Hpre |]. by apply prefix_app_r.
        - intros y y' Hy. rewrite length_app. cbn.
          destruct (decide (x = y)) as [<-|Hne].
          + rewrite lookup_insert_eq in Hy. injection Hy as <-.
            split; [lia |]. split; [done |].
            rewrite list_lookup_middle by done. rewrite <- Hvalue.
            unfold deref. rewrite list_lookup_total_alt.
            destruct (lookup_lt_is_Some_2 h x ltac:(lia)) as [v Hv].
            by rewrite Hv.
          + rewrite lookup_insert_ne in Hy by done.
            destruct (Hentries y y' Hy) as (Hy' & Hyv & Hcopy).
            split; [lia |]. split; [done |].
            by rewrite lookup_app_l by lia.
        - intros y1 y2 z H1 H2.
          destruct (decide (x = y1)) as [<-|Hne1];
            destruct (decide (x = y2)) as [<-|Hne2]; [done | | |].
          + rewrite lookup_insert_eq in H1. injection H1 as <-.
            rewrite lookup_insert_ne in H2 by done.
            destruct (Hentries _ _ H2). lia.
          + rewrite lookup_insert_eq in H2. injection H2 as <-.
            rewrite lookup_insert_ne in H1 by done.
            destruct (Hentries _ _ H1). lia.
          + rewrite lookup_insert_ne in H1, H2 by done. by eapply Hinj. }
      destruct (deepcopy_from _ _ l) as [h' l']. cbn in *.
      exists memo'. split; [| split; [done |]].
      * etrans; [| exact Hsub]. by apply insert_subseteq.
      * constructor; [| done].
        eapply lookup_weaken; [| exact Hsub]. apply lookup_insert_eq.
Qed.

Lemma deepcopy_values (l : list loc) w :
  Forall (λ x, x < length (objects w)) l →
  ∃ (f : loc → loc) w',
    deepcopy l w = (Ok (f <$> l), w') ∧
    objects w `prefix_of` objects w' ∧
    Forall (λ x, length (objects w) ≤ f x < length (objects w') ∧
                 deref (objects w') (f x) = deref (objects w) x) l ∧
    (∀ x y, x ∈ l → y ∈ l → f x = f y → x = y) ∧
    self w' = self w ∧ service w' = service w ∧ trace w' = trace w.
Proof.
  intros Hvalid. unfold deepcopy. rewrite run_bind. cbn.
  destruct (deepcopy_from_copies (objects w) l ∅ (objects w))
    as (memo & _ & (Hpre & Hentries & Hinj) & Hall); [| done |].
  { split; [done |]. split; intros *; by rewrite lookup_empty. }
  destruct (deepcopy_from ∅ (objects w) l) as [h' l'].
  cbn [fst snd] in Hpre, Hentries, Hinj, Hall.
  exists (λ x, default 0 (memo !! x)), (mkWorld h' (self w) (service w) (trace w)).
  cbn. split; [| split; [done |]; split; [| split; [| done]]].
  - assert (Hmap : l' = (λ x, default 0 (memo !! x)) <$> l).
    { clear -Hall. induction Hall as [|x x' l l' Hx _ IH]; cbn; [done |].
      by rewrite Hx, IH. }
    rewrite <- Hmap. reflexivity.
  - clear -Hall Hentries. induction Hall as [|x x' l l' Hx _ IH];
      constructor; [| done].
    rewrite Hx. cbn. destruct (Hentries x x' Hx) as (Hfresh & Hlive & Hcopy).
    split; [done |]. unfold deref. rewrite !list_lookup_total_alt.
    by rewrite Hcopy.
  - intros x y Hxl Hyl.
    assert (Hsome : ∀ z, z ∈ l → is_Some (memo !! z)).
    { clear -Hall. induction Hall as [|a a' l l' Ha _ IH]; intros z Hz.
      - by apply elem_of_nil in Hz.
      - apply elem_of_cons in Hz as [->|Hz]; [by eexists | by apply IH]. }
    destruct (Hsome x Hxl) as [x' Hx]. destruct (Hsome y Hyl) as [y' Hy].
    rewrite Hx, Hy. cbn. intros <-. by eapply Hinj.
Qed.

(** X7: [copy.deepcopy] of a list of live messages never fails and touches
    nothing but the heap, to which it only adds: element by element the new
    list holds a new object with the value of the original, and two elements
    of the new list are the same object exactly when the originals were. *)
Theorem deepcopy_copies (l : list loc) w :
  Forall (λ x, x < length (objects w)) l →
  ∃ (f : loc → loc) w',
    deepcopy l w = (Ok (f <$> l), w') ∧
    objects w `prefix_of` objects w' ∧
    Forall (λ x, length (objects w) ≤ f x < length (objects w') ∧
                 deref (objects w') (f x) = deref (objects w) x) l ∧
    (∀ x y, x ∈ l → y ∈ l → f x = f y → x = y) ∧
    self w' = self w ∧ service w' = service w ∧ trace w' = trace w.
Proof. exact (deepcopy_values l w). Qed.

(** ** Normalisation, event by event *)

Lemma insert_deref (h : heap) (l : loc) : <[l := deref h l]> h = h.
Proof.
  apply list_insert_id'. intros Hl. unfold deref.
  rewrite list_lookup_total_alt.
  by destruct (lookup_lt_is_Some_2 h l Hl) as [v ->].
Qed.

(** One turn of the loop, in every case: it returns, writes at most to the
    object of the event, logs diagnostics only, and takes an element out of
    the list only if the event is a user message; a live event that is not a
    user message gets the value [normalized_message] gives. *)
Lemma normalize_event_writes (event : loc) (events : list loc) w :
  ∃ events' m' errs,
    normalize_event event events w =
    (Ok events',
     mkWorld (<[event := m']> (objects w)) (self w) (service w)
       (trace w ++ errs)) ∧
    Forall is_diagnostic errs ∧
    events' `sublist_of` events ∧
    (role (deref (objects w) event) ≠ "user" → events' = events) ∧
    (event < length (objects w) →
     role (deref (objects w) event) ≠ "user" →
     m' = normalized_message (deref (objects w) event)).
Proof.
  unfold normalize_event, normalized_message. rewrite run_bind. cbn.
  set (v := deref (objects w) event).
  destruct (decide (lower (role v) = "assistant")) as [Hassistant|Hother].
  - destruct (extract_json_from_response (content v)) as [err|d] eqn:Hjson.
    + destruct debug_mode eqn:Hdebug;
        unfold set_role, emit, set_objects, get_world;
        repeat (rewrite run_bind; cbn); rewrite ?Hdebug; cbn;
        fold v; rewrite <- ?app_assoc;
        eexists events, _, _; (split; [reflexivity |]);
        (split; [by repeat constructor |]); by repeat split.
    + unfold set_role, set_content, set_objects, get_world.
      repeat (rewrite run_bind; cbn). fold v.
      rewrite list_insert_insert_eq.
      eexists events, _, []. rewrite app_nil_r.
      split; [reflexivity |]. split; [constructor |].
      split; [done |]. split; [done |]. intros Hlive _.
      unfold deref. by rewrite list_lookup_total_insert_eq.
  - destruct (decide (lower (role v) = "system")) as [Hsystem|Hother'].
    + unfold set_role, set_objects, get_world.
      repeat (rewrite run_bind; cbn). fold v.
      eexists events, _, []. rewrite app_nil_r.
      split; [reflexivity |]. split; [constructor |]. by repeat split.
    + destruct (decide (role v = "user")) as [Huser|Hkept].
      * exists (py_remove (objects w) event events), v, [].
        unfold v at 1. rewrite insert_deref, app_nil_r, world_eta.
        split; [done |]. split; [constructor |].
        split; [apply py_remove_sublist |]. by split.
      * exists events, v, [].
        unfold v at 1. rewrite insert_deref, app_nil_r, world_eta.
        split; [done |]. split; [constructor |]. by repeat split.
Qed.

(** A normalised message is not a user message unless it was one, and
    normalising it again changes nothing. *)
Lemma normalized_message_stable (m : Message) :
  role m ≠ "user" →
  role (normalized_message m) ≠ "user" ∧
  normalized_message (normalized_message m) = normalized_message m.
Proof.
  intros Hrole. unfold normalized_message.
  destruct (decide (lower (role m) = "assistant")); [done |].
  destruct (decide (lower (role m) = "system")); [done |].
  split; [done |]. by rewrite !decide_False.
Qed.

Lemma normalize_loop_without_users (h0 : heap) (events : list loc) :
  Forall (λ l, l < length h0) events →
  Forall (λ l, role (deref h0 l) ≠ "user") events →
  ∀ (turns i : nat) w,
    length (objects w) = length h0 →
    (∀ l, deref (objects w) l =
          if decide (l ∈ take i events)
          then normalized_message (deref h0 l) else deref h0 l) →
    ∃ w',
      normalize_loop turns i events w = (Ok events, w') ∧
      length (objects w') = length h0 ∧
      (∀ l, deref (objects w') l =
            if decide (l ∈ take (i + turns) events)
            then normalized_message (deref h0 l) else deref h0 l) ∧
      quiet w w'.
Proof.
  intros Hlive Hroles turns.
  induction turns as [|turns IH]; intros i w Hlen Hvalues; cbn.
  - exists w. rewrite Nat.add_0_r. by split; [| split; [| split;
      [| apply quiet_refl]]].
  - destruct (events !! i) as [event|] eqn:Hi.
    2:{ exists w. split; [done |]. split; [done |].
        split; [| apply quiet_refl].
        intros l. rewrite Hvalues. apply lookup_ge_None in Hi.
        by rewrite !take_ge by lia. }
    assert (Hevent : event ∈ events) by (by eapply list_elem_of_lookup_2).
    rewrite Forall_forall in Hlive, Hroles.
    specialize (Hlive event Hevent). specialize (Hroles event Hevent).
    destruct (normalized_message_stable _ Hroles) as [Hstill Hidem].
    assert (Hrole : role (deref (objects w) event) ≠ "user").
    { rewrite Hvalues. by case_decide. }
    assert (Hnew : normalized_message (deref (objects w) event)
                   = normalized_message (deref h0 event)).
    { rewrite Hvalues. by case_decide. }
    destruct (normalize_event_writes event events w)
      as (events' & m' & errs & Hrun & Herrs & _ & Hsame & Hvalue).
    rewrite (Hsame Hrole) in Hrun.
    rewrite (Hvalue ltac:(lia) Hrole), Hnew in Hrun.
    rewrite run_bind, Hrun.
    match goal with
    | |- context [normalize_loop turns (S i) events ?w1] =>
        destruct (IH (S i) w1) as (w' & Hrun' & Hlen' & Hvalues' & Hquiet')
    end.
    { cbn. by rewrite length_insert. }
    { intros l. cbn [objects]. unfold deref.
      rewrite (take_S_r _ _ _ Hi).
      destruct (decide (l = event)) as [->|Hne].
      - rewrite list_lookup_total_insert_eq by lia.
        rewrite decide_True; [done |]. apply elem_of_app. right.
        by apply list_elem_of_singleton.
      - rewrite list_lookup_total_insert_ne by done.
        fold (deref (objects w) l). rewrite Hvalues.
        destruct (decide (l ∈ take i events)) as [Hin|Hout].
        + rewrite decide_True; [done |]. apply elem_of_app. by left.
        + rewrite decide_False; [done |].
          rewrite elem_of_app, list_elem_of_singleton. tauto. }
    exists w'. split; [done |]. split; [done |]. split.
    + intros l. rewrite Hvalues'. by replace (S i + turns) with (i + S turns) by lia.
    + eapply quiet_trans; [| exact Hquiet'].
      split; [done |]. split; [done |]. by exists errs.
Qed.

Lemma normalize_values (events : list loc) w :
  Forall (λ l, l < length (objects w)) events →
  Forall (λ l, role (deref (objects w) l) ≠ "user") events →
  ∃ w',
    normalize events w = (Ok events, w') ∧
    length (objects w') = length (objects w) ∧
    (∀ l, deref (objects w') l =
          if decide (l ∈ events)
          then normalized_message (deref (objects w) l)
          else deref (objects w) l) ∧
    self w' = self w ∧ service w' = service w ∧
    ∃ errs, trace w' = trace w ++ errs ∧ Forall is_diagnostic errs.
Proof.
  intros Hlive Hroles. unfold normalize.
  destruct (normalize_loop_without_users (objects w) events Hlive Hroles
              (length events) 0 w eq_refl)
    as (w' & Hrun & Hlen & Hvalues & Hself & Hservice & Htrace).
  { intros l. rewrite take_0. rewrite decide_False; [done |].
    apply not_elem_of_nil. }
  exists w'. split; [done |]. split; [done |]. split; [| done].
  intros l. rewrite Hvalues. by rewrite take_ge by (cbn; lia).
Qed.

(** X8: A list of live messages none of which is a user message is normalised
    in place: the list returned is the list given, every object of the list
    gets the value [normalized_message] gives (an object that occurs twice is
    rewritten once), the other objects keep theirs, and nothing but
    diagnostics is logged. *)
Theorem normalize_without_user_messages (events : list loc) w :
  Forall (λ l, l < length (objects w)) events →
  Forall (λ l, role (deref (objects w) l) ≠ "user") events →
  ∃ w',
    normalize events w = (Ok events, w') ∧
    length (objects w') = length (objects w) ∧
    (∀ l, deref (objects w') l =
          if decide (l ∈ events)
          then normalized_message (deref (objects w) l)
          else deref (objects w) l) ∧
    self w' = self w ∧ service w' = service w ∧
    ∃ errs, trace w' = trace w ++ errs ∧ Forall is_diagnostic errs.
Proof. exact (normalize_values events w). Qed.

Lemma normalize_loop_touches_events_only (turns : nat) :
  ∀ (i : nat) (events : list loc) w,
    ∃ events' w',
      normalize_loop turns i events w = (Ok events', w') ∧
      events' `sublist_of` events ∧
      length (objects w') = length (objects w) ∧
      (∀ l, l ∉ events → objects w' !! l = objects w !! l) ∧
      quiet w w'.
Proof.
  induction turns as [|turns IH]; intros i events w; cbn.
  - exists events, w. by split; [| split; [| split; [| split;
      [| apply quiet_refl]]]].
  - destruct (events !! i) as [event|] eqn:Hi.
    2:{ exists events, w. by split; [| split; [| split; [| split;
          [| apply quiet_refl]]]]. }
    destruct (normalize_event_writes event events w)
      as (events1 & m' & errs & Hrun & Herrs & Hsub & _).
    rewrite run_bind, Hrun.
    match goal with
    | |- context [normalize_loop turns (S i) events1 ?w1] =>
        destruct (IH (S i) events1 w1)
          as (events2 & w2 & Hrun2 & Hsub2 & Hlen2 & Hrest2 & Hquiet2)
    end.
    cbn [objects] in Hlen2, Hrest2. rewrite length_insert in Hlen2.
    exists events2, w2. split; [done |]. split; [by etrans |].
    split; [done |]. split.
    + intros l Hl. rewrite Hrest2.
      * apply list_lookup_insert_ne. intros <-. apply Hl.
        by eapply list_elem_of_lookup_2.
      * intros Hl1. apply Hl. by apply (sublist_subseteq _ _ Hsub).
    + eapply quiet_trans; [| exact Hquiet2].
      split; [done |]. split; [done |]. by exists errs.
Qed.

(** X9: Normalisation of any list: it never fails, returns a sub-list of the
    list in the same order, writes to no object outside the list, allocates
    nothing, leaves the history and the completion service alone and logs
    nothing but diagnostics. *)
Theorem normalize_is_safe (events : list loc) w :
  ∃ events' w',
    normalize events w = (Ok events', w') ∧
    events' `sublist_of` events ∧
    length (objects w') = length (objects w) ∧
    (∀ l, l ∉ events → objects w' !! l = objects w !! l) ∧
    self w' = self w ∧ service w' = service w ∧
    ∃ errs, trace w' = trace w ++ errs ∧ Forall is_diagnostic errs.
Proof.
  destruct (normalize_loop_touches_events_only (length events) 0 events w)
    as (events' & w' & Hrun & Hsub & Hlen & Hrest & Hquiet).
  by exists events', w'.
Qed.

(** ** From the events to the completion calls *)

Lemma sent_batches_app (tr1 tr2 : list effect) :
  sent_batches (tr1 ++ tr2) = sent_batches tr1 ++ sent_batches tr2.
Proof.
  induction tr1 as [|e tr1 IH]; [done |].
  destruct e; cbn; by rewrite IH.
Qed.

Lemma sent_batches_diagnostics (errs : list effect) :
  Forall is_diagnostic errs → sent_batches errs = [].
Proof. induction 1 as [|[] errs He _ IH]; done. Qed.

Lemma completions_app (tr1 tr2 : list effect) :
  completions (tr1 ++ tr2) = completions tr1 ++ completions tr2.
Proof. apply List.filter_app. Qed.

Lemma completions_diagnostics (errs : list effect) :
  Forall is_diagnostic errs → completions errs = [].
Proof. induction 1 as [|[] errs He _ IH]; done. Qed.

(** A non-empty list of live messages without user messages reaches the
    packing loop as fresh copies that carry the normalised values; so far
    only diagnostics were logged. *)
Lemma update_running_summary_prepared (first : loc) (others : list loc) w :
  Forall (λ l, l < length (objects w)) (first :: others) →
  Forall (λ l, role (deref (objects w) l) ≠ "user") (first :: others) →
  ∃ copies w2 errs,
    update_running_summary (first :: others) w = summarize_events copies w2 ∧
    deref (objects w2) <$> copies
    = normalized_message <$> (deref (objects w) <$> first :: others) ∧
    self w2 = self w ∧ service w2 = service w ∧
    trace w2 = trace w ++ errs ∧ Forall is_diagnostic errs.
Proof.
  intros Hlive Hroles. set (events := first :: others) in *.
  destruct (deepcopy_values events w Hlive)
    as (f & w1 & Hrun1 & Hpre1 & Hcopies & _ & Hself1 & Hservice1 & Htrace1).
  destruct (normalize_values (f <$> events) w1)
    as (w2 & Hrun2 & _ & Hvalues & Hself2 & Hservice2 & errs & Htrace2 & Herrs).
  { apply Forall_fmap. eapply Forall_impl; [exact Hcopies |].
    cbn. intros x [Hx _]. lia. }
  { apply Forall_fmap. rewrite Forall_forall in Hcopies, Hroles |- *.
    intros x Hx. cbn. destruct (Hcopies x Hx) as [_ ->]. by apply Hroles. }
  exists (f <$> events), w2, errs.
  split; [| split; [| split; [congruence | split; [congruence |
    split; [congruence | done]]]]].
  - subst events. cbn [update_running_summary].
    rewrite run_bind, Hrun1. unfold normalize in Hrun2 |- *.
    rewrite run_bind, Hrun2. reflexivity.
  - rewrite <- !list_fmap_compose. apply Forall_fmap_ext_1.
    rewrite Forall_forall in Hcopies |- *. intros x Hx. cbn.
    rewrite Hvalues. rewrite decide_True by (by apply list_elem_of_fmap_2).
    by destruct (Hcopies x Hx) as [_ ->].
Qed.

(** The packing loop sends the events it is given, and the batch it
    started with, in order and once each. *)
Lemma pack_partition (events : list loc) :
  ∀ (batch : list loc) (batch_tlength summary_tlength : Z) w,
    ∃ new,
      trace (pack events batch batch_tlength summary_tlength w).2
      = trace w ++ new ∧
      objects (pack events batch batch_tlength summary_tlength w).2
      = objects w ∧
      match (pack events batch batch_tlength summary_tlength w).1 with
      | Ok batch' =>
          concat (sent_batches new) ++ (deref (objects w) <$> batch')
          = (deref (objects w) <$> batch) ++ (deref (objects w) <$> events)
      | Raise _ =>
          concat (sent_batches new)
            `prefix_of`
          (deref (objects w) <$> batch) ++ (deref (objects w) <$> events)
      end.
Proof.
  induction events as [|event rest IH];
    intros batch batch_tlength summary_tlength w.
  - exists []. cbn. by rewrite !app_nil_r.
  - rewrite pack_step. cbn zeta. case_decide as Hover.
    + rewrite summarize_batch_run. cbn zeta.
      destruct (create_chat_completion _ _) as [service' [reason|answer]].
      * eexists. cbn. split; [by rewrite <- app_assoc |]. split; [done |].
        cbn. rewrite app_nil_r. by apply prefix_app_r.
      * match goal with
        | |- context [pack rest [event] ?t ?st ?w1] =>
            destruct (IH [event] t st w1) as (new2 & Htrace & Hobj & Hres)
        end.
        cbn [objects trace] in Htrace, Hobj, Hres.
        eexists. split; [rewrite Htrace, <- !app_assoc; reflexivity |].
        split; [done |].
        destruct (pack rest [event] _ _ _) as [[batch'|e] w2];
          cbn [fst snd] in *; cbn in Hres |- *.
        -- rewrite <- app_assoc. f_equal. exact Hres.
        -- apply prefix_app. exact Hres.
    + destruct (IH (batch ++ [event])
                  (batch_tlength + event_tokens (deref (objects w) event))%Z
                  summary_tlength w) as (new & Htrace & Hobj & Hres).
      exists new. split; [done |]. split; [done |].
      destruct (pack rest _ _ _ w) as [[batch'|e] w2]; cbn [fst snd] in *.
      * rewrite Hres, fmap_app, <- app_assoc. done.
      * by rewrite fmap_app, <- app_assoc in Hres.
Qed.

Lemma summarize_events_partition (copies : list loc) w :
  ∃ new,
    trace (summarize_events copies w).2 = trace w ++ new ∧
    concat (sent_batches new) `prefix_of` (deref (objects w) <$> copies) ∧
    (∀ m, (summarize_events copies w).1 = Ok m →
          concat (sent_batches new) = deref (objects w) <$> copies).
Proof.
  unfold summarize_events. rewrite run_bind. cbn [get_world].
  rewrite run_bind.
  destruct (pack_partition copies [] 0%Z
              (count_string_tokens (summary (self w))) w)
    as (new & Htrace & Hobj & Hres).
  destruct (pack copies [] 0%Z _ w) as [[batch|e] w1]; cbn [fst snd] in *.
  - rewrite run_bind. destruct batch as [|b batch].
    + rewrite run_ret, summary_message_run. cbn.
      exists new. rewrite app_nil_r in Hres. by rewrite Hres.
    + rewrite summarize_batch_run. cbn zeta.
      destruct (create_chat_completion _ _) as [service' [reason|answer]];
        rewrite ?summary_message_run; cbn [fst snd trace];
        eexists; (split; [rewrite Htrace, <- !app_assoc; reflexivity |]);
        rewrite sent_batches_app, concat_app, Hobj;
        cbn [sent_batches app concat]; rewrite app_nil_r, Hres; by split.
  - exists new. by split; [| split].
Qed.

(** X11: When no event is a user message, the batches sent to the completion
    service are, put end to end, the normalised events in their order: each
    event is sent once if the call returns, and a first part of them if a
    flush fails. *)
Theorem every_event_is_sent_once (events : list loc) w :
  Forall (λ l, l < length (objects w)) events →
  Forall (λ l, role (deref (objects w) l) ≠ "user") events →
  concat (sent_batches (effects_of (update_running_summary events) w))
    `prefix_of` normalized_message <$> (deref (objects w) <$> events) ∧
  (∀ m, (update_running_summary events w).1 = Ok m →
        concat (sent_batches (effects_of (update_running_summary events) w))
        = normalized_message <$> (deref (objects w) <$> events)).
Proof.
  intros Hlive Hroles. destruct events as [|first others].
  { unfold effects_of. cbn. by rewrite drop_all. }
  destruct (update_running_summary_prepared first others w Hlive Hroles)
    as (copies & w2 & errs & Hrun & Hvalues & _ & _ & Htrace & Herrs).
  destruct (summarize_events_partition copies w2)
    as (new & Htrace2 & Hprefix & Hall).
  rewrite <- Hrun in Htrace2, Hall.
  rewrite (effects_of_app _ _ (errs ++ new))
    by (by rewrite Htrace2, Htrace, app_assoc).
  rewrite sent_batches_app, (sent_batches_diagnostics _ Herrs).
  cbn [app]. rewrite <- Hvalues. by split.
Qed.

Lemma sum_tokens_nonneg (batch : list Message) :
  (∀ m, 0 ≤ event_tokens m)%Z → (0 ≤ sum_tokens batch)%Z.
Proof.
  intros Hnonneg. induction batch as [|m batch IH]; cbn; [done |].
  specialize (Hnonneg m). unfold sum_tokens in IH. lia.
Qed.

(** While the running total stays within the budget nothing is flushed. *)
Lemma pack_fits (events : list loc) :
  ∀ (batch : list loc) (batch_tlength summary_tlength : Z) w,
    (∀ m, 0 ≤ event_tokens m)%Z →
    (batch_tlength + sum_tokens (deref (objects w) <$> events)
     ≤ max_tokens - prompt_template_length - summary_tlength)%Z →
    pack events batch batch_tlength summary_tlength w
    = (Ok (batch ++ events), w).
Proof.
  induction events as [|event rest IH];
    intros batch batch_tlength summary_tlength w Hnonneg Hfits.
  - cbn. by rewrite app_nil_r.
  - rewrite pack_step. cbn zeta. cbn in Hfits.
    pose proof (sum_tokens_nonneg (deref (objects w) <$> rest) Hnonneg).
    unfold sum_tokens in *.
    rewrite decide_False by lia.
    rewrite IH; [by rewrite <- app_assoc | done | lia].
Qed.

(** X12: When no event is a user message, no token count is negative and the
    normalised events fit together in the budget that the summary leaves,
    exactly one completion call is made, with all of them, under the
    summary of before the call. *)
Theorem one_call_when_everything_fits (first : loc) (others : list loc) w :
  Forall (λ l, l < length (objects w)) (first :: others) →
  Forall (λ l, role (deref (objects w) l) ≠ "user") (first :: others) →
  (∀ m, 0 ≤ event_tokens m)%Z →
  within_budget (summary (self w))
    (normalized_message <$> (deref (objects w) <$> first :: others)) →
  completions (effects_of (update_running_summary (first :: others)) w)
  = [ChatCompletion (summary (self w))
       (normalized_message <$> (deref (objects w) <$> first :: others))
       (summary_prompt (summary (self w))
          (normalized_message <$> (deref (objects w) <$> first :: others)))].
Proof.
  intros Hlive Hroles Hnonneg Hfits.
  destruct (update_running_summary_prepared first others w Hlive Hroles)
    as (copies & w2 & errs & Hrun & Hvalues & Hself & _ & Htrace & Herrs).
  rewrite <- Hvalues in Hfits |- *. rewrite <- Hself.
  assert (Hpack : pack copies [] 0%Z
                    (count_string_tokens (summary (self w2))) w2
                  = (Ok copies, w2)).
  { rewrite pack_fits; [done | done |].
    unfold within_budget, budget in Hfits. rewrite Hself. lia. }
  assert (Hsome : copies ≠ []).
  { intros ->. by apply (f_equal length) in Hvalues. }
  assert (Heffects :
    effects_of (update_running_summary (first :: others)) w
    = errs
      ++ [LogCycle (summary_prompt (summary (self w2))
                      (deref (objects w2) <$> copies))
            PROMPT_SUMMARY_FILE_NAME;
          ChatCompletion (summary (self w2)) (deref (objects w2) <$> copies)
            (summary_prompt (summary (self w2))
               (deref (objects w2) <$> copies))]
      ++ match (create_chat_completion (service w2)
                  (summary_prompt (summary (self w2))
                     (deref (objects w2) <$> copies))).2 with
         | inr answer => [LogCycle answer SUMMARY_FILE_NAME]
         | inl _ => []
         end).
  { apply effects_of_app. rewrite Hrun. unfold summarize_events.
    rewrite run_bind. cbn [get_world]. rewrite run_bind, Hpack, run_bind.
    destruct copies as [|c copies]; [done |].
    rewrite summarize_batch_run. cbn zeta.
    destruct (create_chat_completion _ _) as [service' [reason|answer]];
      rewrite ?summary_message_run; cbn [fst snd trace];
      rewrite Htrace, <- ?app_assoc; reflexivity. }
  rewrite Heffects, completions_app, (completions_diagnostics _ Herrs).
  cbn [app]. by destruct (create_chat_completion _ _).2.
Qed.



(** ** One flush *)

(** X15: A flush logs the prompt, makes one completion call under the summary in
    place and, if the service answers, makes the answer the summary, as it
    is, and logs it; if the service fails, the failure is raised, the summary
    stays and nothing more is logged.  The objects, the cycles and the cursor
    are not touched. *)
Theorem summarize_batch_effects (batch : list loc) w :
  let values := deref (objects w) <$> batch in
  let prompt := summary_prompt (summary (self w)) values in
  let call := ChatCompletion (summary (self w)) values prompt in
  let outcome := summarize_batch batch w in
  objects outcome.2 = objects w ∧
  message_cycles (self outcome.2) = message_cycles (self w) ∧
  last_trimmed_index (self outcome.2) = last_trimmed_index (self w) ∧
  service outcome.2 = (create_chat_completion (service w) prompt).1 ∧
  match (create_chat_completion (service w) prompt).2 with
  | inr answer =>
      outcome.1 = Ok () ∧ summary (self outcome.2) = answer ∧
      effects_of (summarize_batch batch) w
      = [LogCycle prompt PROMPT_SUMMARY_FILE_NAME; call;
         LogCycle answer SUMMARY_FILE_NAME]
  | inl reason =>
      outcome.1 = Raise (CompletionServiceFailure reason) ∧
      summary (self outcome.2) = summary (self w) ∧
      effects_of (summarize_batch batch) w
      = [LogCycle prompt PROMPT_SUMMARY_FILE_NAME; call]
  end.
Proof.
  cbn zeta. unfold effects_of. rewrite summarize_batch_run. cbn zeta.
  destruct (create_chat_completion _ _) as [service' [reason|answer]]; cbn;
    rewrite <- ?app_assoc, drop_app_length; by repeat split.
Qed.

(** ** User messages *)

Lemma py_remove_own (h : heap) (x : loc) (pre rest : list loc) :
  Forall (λ y, deref h y ≠ deref h x) pre →
  py_remove h x (pre ++ x :: rest) = pre ++ rest.
Proof.
  induction 1 as [|y pre Hy _ IH]; cbn.
  - rewrite decide_True; [done | by left].
  - rewrite decide_False; [by rewrite IH |].
    intros [-> | Heq]; by apply Hy.
Qed.

Lemma normalize_event_user (event : loc) (events : list loc) w :
  role (deref (objects w) event) = "user" →
  normalize_event event events w
  = (Ok (py_remove (objects w) event events), w).
Proof.
  intros Hrole. unfold normalize_event. rewrite run_bind. cbn.
  rewrite Hrole. reflexivity.
Qed.

Lemma normalize_loop_users (h : heap) (turns : nat) :
  ∀ (pre rest : list loc) w,
    objects w = h →
    length rest ≤ turns →
    Forall (λ l, role (deref h l) = "user") rest →
    NoDup (deref h <$> pre ++ rest) →
    normalize_loop turns (length pre) (pre ++ rest) w
    = (Ok (pre ++ every_second rest), w).
Proof.
  induction turns as [|turns IH]; intros pre rest w Hobj Hlen Husers Hdistinct.
  - destruct rest; [done | cbn in Hlen; lia].
  - cbn [normalize_loop]. destruct rest as [|x rest].
    { rewrite lookup_ge_None_2 by (rewrite length_app; cbn; lia). done. }
    rewrite list_lookup_middle by done.
    apply Forall_cons in Husers as [Hx Husers].
    rewrite run_bind, normalize_event_user by (by rewrite Hobj).
    rewrite Hobj, py_remove_own.
    2:{ rewrite fmap_app, fmap_cons in Hdistinct.
        apply NoDup_app in Hdistinct as (_ & Hsep & _).
        rewrite Forall_forall. intros y Hy Heq.
        apply (Hsep (deref h y)); [by apply list_elem_of_fmap_2 |].
        rewrite Heq. by left. }
    assert (Hdistinct' : NoDup (deref h <$> pre ++ rest)).
    { rewrite fmap_app, fmap_cons in Hdistinct. rewrite fmap_app.
      apply NoDup_app in Hdistinct as (Hpre & Hsep & Hrest).
      apply NoDup_cons in Hrest as [_ Hrest].
      apply NoDup_app. split; [done |]. split; [| done].
      intros v Hv Hin. apply (Hsep v Hv). by right. }
    destruct rest as [|y rest].
    { cbn [every_second]. rewrite !app_nil_r.
      destruct turns; cbn [normalize_loop]; [done |].
      by rewrite lookup_ge_None_2 by lia. }
    apply Forall_cons in Husers as [_ Husers].
    replace (pre ++ y :: rest) with ((pre ++ [y]) ++ rest)
      in Hdistinct' |- * by (by rewrite <- app_assoc).
    replace (S (length pre)) with (length (pre ++ [y]))
      by (rewrite length_app; cbn; lia).
    rewrite IH; [| done | cbn in Hlen; lia | done | done].
    cbn. by rewrite <- app_assoc.
Qed.

(** X10: Of a list of user messages with different values, normalisation takes
    out the first, the third, the fifth and so on, and leaves every second
    one in the list; nothing else changes. *)
Theorem every_second_user_message_survives (events : list loc) w :
  Forall (λ l, role (deref (objects w) l) = "user") events →
  NoDup (deref (objects w) <$> events) →
  normalize events w = (Ok (every_second events), w).
Proof.
  intros Husers Hdistinct. unfold normalize.
  by apply (normalize_loop_users (objects w) (length events) [] events w).
Qed.

(** ** No flush before it is needed *)

Lemma calls_app (tr1 tr2 : list effect) :
  calls (tr1 ++ tr2) = calls tr1 ++ calls tr2.
Proof.
  induction tr1 as [|e tr1 IH]; [done |].
  destruct e; cbn; by rewrite IH.
Qed.

Lemma calls_diagnostics (errs : list effect) :
  Forall is_diagnostic errs → calls errs = [].
Proof. induction 1 as [|[] errs He _ IH]; done. Qed.

Lemma last_call_cons previous c cs :
  last_call previous (c :: cs) = last_call (Some c) cs.
Proof.
  unfold last_call. rewrite last_cons. by destruct (last cs).
Qed.

Lemma forced_after_app previous cs1 cs2 :
  forced_after previous (cs1 ++ cs2) ↔
  forced_after previous cs1 ∧ forced_after (last_call previous cs1) cs2.
Proof.
  revert previous. induction cs1 as [|c cs1 IH]; intros previous.
  - cbn. unfold last_call. cbn. tauto.
  - cbn [app forced_after]. rewrite IH, last_call_cons. tauto.
Qed.

Lemma overflows_snoc earlier (batch : list Message) (m : Message) :
  overflows earlier batch → overflows earlier (batch ++ [m]).
Proof. by destruct batch. Qed.

(** The packing loop flushes a batch only when the event at hand does not
    fit in it, and the next batch starts with that event. *)
Lemma pack_forced (events : list loc) :
  ∀ (batch : list loc) (batch_tlength summary_tlength : Z) w previous,
    batch_tlength = sum_tokens (deref (objects w) <$> batch) →
    summary_tlength = count_string_tokens (summary (self w)) →
    from_option (λ p, overflows p (deref (objects w) <$> batch)) True
      previous →
    ∃ new,
      trace (pack events batch batch_tlength summary_tlength w).2
      = trace w ++ new ∧
      objects (pack events batch batch_tlength summary_tlength w).2
      = objects w ∧
      forced_after previous (calls new) ∧
      match (pack events batch batch_tlength summary_tlength w).1 with
      | Ok batch' =>
          from_option (λ p, overflows p (deref (objects w) <$> batch')) True
            (last_call previous (calls new))
      | Raise _ => True
      end.
Proof.
  induction events as [|event rest IH];
    intros batch batch_tlength summary_tlength w previous Hsum Hlen Hprev.
  - exists []. cbn. by rewrite app_nil_r.
  - rewrite pack_step. cbn zeta. case_decide as Hover.
    + rewrite summarize_batch_run. cbn zeta.
      destruct (create_chat_completion _ _) as [service' [reason|answer]].
      * eexists. cbn [fst snd trace objects].
        split; [by rewrite <- app_assoc |]. split; [done |]. by cbn.
      * match goal with
        | |- context [pack rest [event] ?t ?st ?w1] =>
            destruct (IH [event] t st w1
                        (Some (summary (self w),
                               deref (objects w) <$> batch)))
              as (new2 & Htrace & Hobj & Hforced & Hres)
        end.
        { cbn. lia. }
        { done. }
        { cbn [from_option objects]. unfold overflows, budget.
          cbn [fmap list_fmap fst snd]. rewrite <- Hsum, <- Hlen. lia. }
        cbn [objects trace] in Htrace, Hobj, Hres.
        eexists. split; [rewrite Htrace, <- !app_assoc; reflexivity |].
        split; [done |]. cbn [app calls forced_after snd].
        split; [by split |]. rewrite last_call_cons.
        by destruct (pack rest [event] _ _ _) as [[batch'|e] w2].
    + destruct (IH (batch ++ [event])
                  (batch_tlength + event_tokens (deref (objects w) event))%Z
                  summary_tlength w previous)
        as (new & Htrace & Hobj & Hforced & Hres).
      { rewrite fmap_app, sum_tokens_app. cbn. lia. }
      { done. }
      { destruct previous as [p|]; [| done]. cbn in *.
        rewrite fmap_app. by apply overflows_snoc. }
      by exists new.
Qed.

(** Any non-empty list of events reaches the packing loop after the copy
    and the normalisation, with only diagnostics logged. *)
Lemma update_running_summary_reaches_packing (first : loc)
    (others : list loc) w :
  ∃ copies w2 errs,
    update_running_summary (first :: others) w = summarize_events copies w2 ∧
    trace w2 = trace w ++ errs ∧ Forall is_diagnostic errs.
Proof.
  destruct (deepcopy_spec (first :: others) w)
    as (copies0 & w1 & Hrun1 & _ & (_ & _ & errs1 & Htrace1 & Herrs1) & Hfresh).
  destruct (normalize_loop_spec (length (objects w)) (length copies0) 0
              copies0 w1 Hfresh)
    as (copies & w2 & Hrun2 & _ & (_ & _ & errs2 & Htrace2 & Herrs2) & _).
  exists copies, w2, (errs1 ++ errs2).
  split; [| split; [by rewrite Htrace2, Htrace1, app_assoc |
                    by apply Forall_app]].
  cbn [update_running_summary]. rewrite run_bind, Hrun1.
  unfold normalize. rewrite run_bind, Hrun2. reflexivity.
Qed.

(** X14: Between two completion calls of [update_running_summary] there is
    always an overflow: the later batch starts with an event that, added to
    the earlier batch, would have exceeded the budget under the summary of
    the earlier call.  No flush happens before it is needed. *)
Theorem flushes_are_forced (new_events : list loc) w :
  forced_after None (calls (effects_of (update_running_summary new_events) w)).
Proof.
  destruct new_events as [|first others].
  { unfold effects_of. cbn. by rewrite drop_all. }
  destruct (update_running_summary_reaches_packing first others w)
    as (copies & w2 & errs & Hrun & Htrace & Herrs).
  assert (Hpack : ∃ new,
    trace (summarize_events copies w2).2 = trace w2 ++ new ∧
    forced_after None (calls new)).
  { unfold summarize_events. rewrite run_bind. cbn [get_world].
    rewrite run_bind.
    destruct (pack_forced copies [] 0%Z
                (count_string_tokens (summary (self w2))) w2 None)
      as (new & Htrace2 & Hobj & Hforced & Hres); [done | done | done |].
    destruct (pack copies [] 0%Z _ w2) as [[batch|e] w3];
      cbn [fst snd] in *; [| by exists new].
    rewrite run_bind. destruct batch as [|b batch].
    - rewrite run_ret, summary_message_run. by exists new.
    - rewrite summarize_batch_run. cbn zeta.
      destruct (create_chat_completion _ _) as [service' [reason|answer]];
        rewrite ?summary_message_run; cbn [fst snd trace];
        eexists; (split; [rewrite Htrace2, <- !app_assoc; reflexivity |]);
        rewrite calls_app; cbn [app calls];
        apply forced_after_app; (split; [done |]);
        cbn [forced_after snd]; rewrite Hobj; by split. }
  destruct Hpack as (new & Htrace2 & Hforced).
  rewrite (effects_of_app _ _ (errs ++ new))
    by (by rewrite Hrun, Htrace2, Htrace, app_assoc).
  by rewrite calls_app, (calls_diagnostics _ Herrs).
Qed.

End MoreProperties.

(** * More concrete runs *)

(** With the cursor at the last of four messages a trim does nothing. *)
Lemma trim_past_the_end_is_noop_witness :
  let w := @mkWorld lookup_env [m0; m1; m2; m3] all_trimmed 0 [] in
  (Z.of_nat (length (messages (self w))) ≤ last_trimmed_index (self w) + 1)%Z ∧
  trim_messages [] w =
  (Ok (mkMessage "system"
         "This reminds you of these events from your past: 
I found a key", []), w).
Proof.
  intros w. assert (Hend : (Z.of_nat (length (messages (self w)))
                            ≤ last_trimmed_index (self w) + 1)%Z) by (cbn; lia).
  split; [exact Hend |]. exact (trim_past_the_end_is_noop [] w Hend).
Defined.

(** The trim example under the reading that finds the cycle of a message:
    the call returns the two stale messages and the summary message of the
    new summary; the cursor is the position of the second cycle. *)
Lemma trim_success_witness :
  let w := @mkWorld lookup_env [m0; m1; m2; m3] two_cycles 0 [] in
  let m := mkMessage "system"
             "This reminds you of these events from your past: 
summary 0" in
  let w' := (trim_messages [2] w).2 in
  trim_messages [2] w = (Ok (m, [1; 3]), w') ∧
  [1; 3] = new_messages_not_in_chain (objects w) (self w) [2] ∧
  summary (self w') = "summary 0" ∧
  last_trimmed_index (self w') = 1%Z.
Proof.
  intros w m w'.
  assert (Hrun : trim_messages [2] w = (Ok (m, [1; 3]), w'))
    by (vm_compute; reflexivity).
  destruct (trim_success [2] w m [1; 3] w' Hrun) as (Hstale & _).
  split; [exact Hrun |]. split; [exact Hstale |].
  split; vm_compute; reflexivity.
Defined.

(** A deep copy of a list in which one message occurs twice. *)
Lemma deepcopy_copies_witness :
  let w := @mkWorld lookup_env [m0; m1; m2; m3] two_cycles 0 [] in
  Forall (λ x, x < length (objects w)) [1; 3; 1] ∧
  ∃ (f : nat → nat) w',
    deepcopy [1; 3; 1] w = (Ok (f <$> [1; 3; 1]), w') ∧
    objects w `prefix_of` objects w' ∧
    Forall (λ x, length (objects w) ≤ f x < length (objects w') ∧
                 deref (objects w') (f x) = deref (objects w) x) [1; 3; 1] ∧
    (∀ x y, x ∈ [1; 3; 1] → y ∈ [1; 3; 1] → f x = f y → x = y) ∧
    self w' = self w ∧ service w' = service w ∧ trace w' = trace w.
Proof.
  intros w.
  assert (Hlive : Forall (λ x, x < length (objects w)) [1; 3; 1])
    by (repeat constructor; cbn; lia).
  split; [exact Hlive |]. exact (deepcopy_copies [1; 3; 1] w Hlive).
Defined.

(** The four messages of the example, normalised in place. *)
Lemma normalize_without_user_messages_witness :
  let w := @mkWorld lookup_env [m0; m1; m2; m3] two_cycles 0 [] in
  Forall (λ l, l < length (objects w)) [0; 1; 2; 3] ∧
  Forall (λ l, role (deref (objects w) l) ≠ "user") [0; 1; 2; 3] ∧
  (normalize [0; 1; 2; 3] w).1 = Ok [0; 1; 2; 3] ∧
  objects (normalize [0; 1; 2; 3] w).2
  = [mkMessage "your computer" "You are an agent";
     mkMessage "you" action_only;
     mkMessage "your computer" "Command returned: done";
     mkMessage "you" "I am not JSON"].
Proof.
  intros w.
  assert (Hlive : Forall (λ l, l < length (objects w)) [0; 1; 2; 3])
    by (repeat constructor; cbn; lia).
  assert (Hroles : Forall (λ l, role (deref (objects w) l) ≠ "user")
                     [0; 1; 2; 3]) by (by repeat constructor).
  split; [exact Hlive |]. split; [exact Hroles |].
  destruct (normalize_without_user_messages [0; 1; 2; 3] w Hlive Hroles)
    as (w' & Hrun & _).
  rewrite Hrun. split; [reflexivity |].
  rewrite <- Hrun. vm_compute. reflexivity.
Defined.

(** Of three user messages the second survives. *)
Lemma every_second_user_message_survives_witness :
  let w := @mkWorld lookup_env [u0; u1; u2] fresh_history 0 [] in
  Forall (λ l, role (deref (objects w) l) = "user") [0; 1; 2] ∧
  NoDup (deref (objects w) <$> [0; 1; 2]) ∧
  normalize [0; 1; 2] w = (Ok [1], w).
Proof.
  intros w.
  assert (Husers : Forall (λ l, role (deref (objects w) l) = "user")
                     [0; 1; 2]) by (by repeat constructor).
  assert (Hdistinct : NoDup (deref (objects w) <$> [0; 1; 2])).
  { apply (bool_decide_unpack (NoDup (deref (objects w) <$> [0; 1; 2]))).
    vm_compute. exact I. }
  split; [exact Husers |]. split; [exact Hdistinct |].
  exact (every_second_user_message_survives [0; 1; 2] w Husers Hdistinct).
Defined.

(** Three events of 2515 tokens: three calls of one event each, which
    together carry the three normalised events. *)
Lemma every_event_is_sent_once_witness :
  let w := @mkWorld lookup_env [m0; long_event; long_event; long_event]
             two_cycles 0 [] in
  Forall (λ l, l < length (objects w)) [1; 2; 3] ∧
  Forall (λ l, role (deref (objects w) l) ≠ "user") [1; 2; 3] ∧
  length (sent_batches (effects_of (update_running_summary [1; 2; 3]) w)) = 3 ∧
  concat (sent_batches (effects_of (update_running_summary [1; 2; 3]) w))
  = @normalized_message lookup_env <$> (deref (objects w) <$> [1; 2; 3]).
Proof.
  intros w.
  assert (Hlive : Forall (λ l, l < length (objects w)) [1; 2; 3])
    by (repeat constructor; cbn; lia).
  assert (Hroles : Forall (λ l, role (deref (objects w) l) ≠ "user")
                     [1; 2; 3]) by (by repeat constructor).
  split; [exact Hlive |]. split; [exact Hroles |].
  split; [vm_compute; reflexivity |].
  destruct (every_event_is_sent_once [1; 2; 3] w Hlive Hroles) as [_ Hall].
  apply (Hall (mkMessage "system"
                 "This reminds you of these events from your past: 
summary 2")).
  vm_compute. reflexivity.
Defined.

Lemma stand_in_tokens_nonneg eqb failing (m : Message) :
  (0 ≤ @event_tokens (stand_in eqb failing) m)%Z.
Proof. unfold event_tokens. cbn. lia. Defined.

(** The three short messages of the example fit in one batch. *)
Lemma one_call_when_everything_fits_witness :
  let w := @mkWorld lookup_env [m0; m1; m2; m3] two_cycles 0 [] in
  let normalized :=
    [mkMessage "you" action_only;
     mkMessage "your computer" "Command returned: done";
     mkMessage "you" "I am not JSON"] in
  Forall (λ l, l < length (objects w)) [1; 2; 3] ∧
  Forall (λ l, role (deref (objects w) l) ≠ "user") [1; 2; 3] ∧
  (∀ m, 0 ≤ @event_tokens lookup_env m)%Z ∧
  @within_budget lookup_env (summary (self w)) normalized ∧
  completions (effects_of (update_running_summary [1; 2; 3]) w)
  = [ChatCompletion "I was created" normalized
       (@summary_prompt lookup_env "I was created" normalized)].
Proof.
  intros w normalized.
  assert (Hlive : Forall (λ l, l < length (objects w)) [1; 2; 3])
    by (repeat constructor; cbn; lia).
  assert (Hroles : Forall (λ l, role (deref (objects w) l) ≠ "user")
                     [1; 2; 3]) by (by repeat constructor).
  assert (Hfits : @within_budget lookup_env (summary (self w)) normalized).
  { unfold within_budget. apply Z.leb_le. vm_compute. reflexivity. }
  split; [exact Hlive |]. split; [exact Hroles |].
  split; [exact (stand_in_tokens_nonneg holds_message []) |].
  split; [exact Hfits |].
  exact (one_call_when_everything_fits 1 [2; 3] w Hlive Hroles
           (stand_in_tokens_nonneg holds_message []) Hfits).
Defined.


(** The trim example when no cycle equals a message: the stale messages
    are summarised, the call fails, the cursor stays at 0. *)
Lemma trim_without_cycle_equality_witness :
  let w := @mkWorld dataclass_env [m0; m1; m2; m3] two_cycles 0 [] in
  (∀ cycle m, never_equal cycle m = false) ∧
  new_messages_not_in_chain (objects w) (self w) [2] ≠ [] ∧
  last_trimmed_index (self (trim_messages [2] w).2) = 0%Z ∧
  (∃ e, (trim_messages [2] w).1 = Raise e) ∧
  summary (self (trim_messages [2] w).2) = "summary 0".
Proof.
  intros w.
  assert (Hnever : ∀ cycle m, never_equal cycle m = false) by done.
  assert (Hstale : new_messages_not_in_chain (objects w) (self w) [2] ≠ [])
    by (vm_compute; discriminate).
  destruct (@trim_without_cycle_equality dataclass_env [2] w Hnever)
    as [Hcursor Hraise].
  split; [exact Hnever |]. split; [exact Hstale |].
  split; [exact Hcursor |]. split; [exact (Hraise Hstale) |].
  vm_compute. reflexivity.
Defined.

(** * The cursor over a sequence of calls, and an assistant message after a
    user message *)

Section SequencesAndSkips.
Context {env : Env}.



(** C7: an assistant message that comes right after a user message is
    never reached by the loop of lines 136-156, because removing the user
    message moves it into the position the iterator has just left.  It
    keeps its role and its content, "thoughts" included when the content is
    [{"thoughts": "x", "action": "y"}], and that is the message sent to the
    completion service.  Same defect as C4. *)
Theorem assistant_after_user_is_not_normalized (a c : string)
    (s : MessageHistory) (service0 : Service) (tr : list effect) :
  let w := mkWorld [mkMessage "user" a; mkMessage "assistant" c]
             s service0 tr in
  normalize [0; 1] w = (Ok [1], w) ∧
  (∀ m, (update_running_summary [0; 1] w).1 = Ok m →
        concat (sent_batches (effects_of (update_running_summary [0; 1]) w))
        = [mkMessage "assistant" c]).
Proof.
  intros w. split; [reflexivity |].
  set (w1 := mkWorld [mkMessage "user" a; mkMessage "assistant" c;
                      mkMessage "user" a; mkMessage "assistant" c]
               s service0 tr).
  assert (Hrun : update_running_summary [0; 1] w = summarize_events [3] w1)
    by reflexivity.
  destruct (summarize_events_partition [3] w1) as (new & Htrace & _ & Hall).
  rewrite <- Hrun in Htrace, Hall.
  rewrite (effects_of_app _ _ new Htrace). exact Hall.
Qed.

End SequencesAndSkips.


(** The failing input of C7 as the completion service sees it: one call,
    whose batch is the assistant message as it came, and no diagnostic. *)
Lemma unnormalized_assistant_reaches_the_summary :
  effects_of (update_running_summary [0; 1])
    (@mkWorld dataclass_env
       [mkMessage "user" "a"; mkMessage "assistant" thoughts_and_action]
       fresh_history 0 [])
  = [LogCycle
       (@summary_prompt dataclass_env "I was created"
          [mkMessage "assistant" thoughts_and_action])
       PROMPT_SUMMARY_FILE_NAME;
     ChatCompletion "I was created"
       [mkMessage "assistant" thoughts_and_action]
       (@summary_prompt dataclass_env "I was created"
          [mkMessage "assistant" thoughts_and_action]);
     LogCycle "summary 0" SUMMARY_FILE_NAME].
Proof. vm_compute. reflexivity. Qed.
